(** * SNMP printer utility: discovery, address enumeration and device reports

    A shallow embedding of [main.go] (package main of snmp-printer-utility)
    and the statements of its specification that were checked against it.

    Layout:
    - [net]: the part of Go's [net] package the program calls
      ([IP.To4], [IP.Mask], [CIDRMask], [IPNet.Contains], [IP.String]);
    - [incIP] and the enumeration loop of [scanNetwork];
    - the report rendering of [pollPrinter] (supplies, trays, percentages);
    - the walk callbacks of [pollPrinter] (records keyed by table index);
    - the worker pool of [scanNetwork] as a transition system;
    - [main]: the fatal and the non-fatal paths. *)

From Stdlib Require Import ZArith Lia String Ascii.
From Stdlib Require Import Floats.SpecFloat.
From stdpp Require Import gmap strings list pretty.

Local Open Scope Z_scope.

(** ** Go's [net] package, as far as the program uses it *)

Module net.

(** [net.IP] and [net.IPMask] are byte slices; an octet is a [Z] in
    [0, 256).  A nil slice is [None] where the program tests for it. *)
Definition IP := list Z.
Definition IPMask := list Z.

Record IPNet := { IPNet_IP : IP; IPNet_Mask : IPMask }.

Definition octet (b : Z) : Prop := 0 <= b < 256.

(** A well-formed 4-octet address. *)
Definition is_ip4 (ip : IP) : Prop := length ip = 4%nat ∧ Forall octet ip.

Definition v4InV6Prefix : list Z := [0;0;0;0;0;0;0;0;0;0;255;255].

Definition list_eqb (l1 l2 : list Z) : bool := bool_decide (l1 = l2).

(** [func (ip IP) To4() IP] *)
Definition To4 (ip : IP) : option IP :=
  if (length ip =? 4)%nat then Some ip
  else if (length ip =? 16)%nat && list_eqb (take 12 ip) v4InV6Prefix
       then Some (drop 12 ip)
       else None.

(** [func CIDRMask(ones, bits int) IPMask]: the loop over the [l] bytes
    of the mask, [n] being the number of one bits still to place. *)
Fixpoint CIDRMask_loop (l : nat) (n : Z) : list Z :=
  match l with
  | O => []
  | S l' =>
      if 8 <=? n then 255 :: CIDRMask_loop l' (n - 8)
      else Z.lxor 255 (Z.shiftr 255 n) :: CIDRMask_loop l' 0
  end.

Definition CIDRMask (ones bits : Z) : option IPMask :=
  if negb (bits =? 32) && negb (bits =? 128) then None
  else if (ones <? 0) || (bits <? ones) then None
  else Some (CIDRMask_loop (Z.to_nat (bits / 8)) ones).

Definition allFF (l : list Z) : bool := forallb (Z.eqb 255) l.

(** [func (ip IP) Mask(mask IPMask) IP] *)
Definition Mask (ip : IP) (mask : IPMask) : option IP :=
  let mask :=
    if (length mask =? 16)%nat && (length ip =? 4)%nat && allFF (take 12 mask)
    then drop 12 mask else mask in
  let ip :=
    if (length mask =? 4)%nat && (length ip =? 16)%nat
       && list_eqb (take 12 ip) v4InV6Prefix
    then drop 12 ip else ip in
  if (length ip =? length mask)%nat
  then Some (zip_with Z.land ip mask)
  else None.

(** [func networkNumberAndMask(n *IPNet) (ip IP, m IPMask)]; the result
    [(nil, nil)] is the pair of empty slices. *)
Definition networkNumberAndMask (n : IPNet) : IP * IPMask :=
  let oip :=
    match To4 (IPNet_IP n) with
    | Some x => Some x
    | None => if (length (IPNet_IP n) =? 16)%nat then Some (IPNet_IP n) else None
    end in
  match oip with
  | None => ([], [])
  | Some ip =>
      if (length (IPNet_Mask n) =? 4)%nat then
        if (length ip =? 4)%nat then (ip, IPNet_Mask n) else ([], [])
      else if (length (IPNet_Mask n) =? 16)%nat then
        if (length ip =? 4)%nat then (ip, drop 12 (IPNet_Mask n))
        else (ip, IPNet_Mask n)
      else ([], [])
  end.

(** The comparison loop of [Contains]: [nn[i]&m[i] != ip[i]&m[i]]. *)
Fixpoint masked_eqb (nn m ip : list Z) : bool :=
  match nn, m, ip with
  | a :: nn', k :: m', b :: ip' =>
      (Z.land a k =? Z.land b k) && masked_eqb nn' m' ip'
  | _, _, _ => true
  end.

(** [func (n *IPNet) Contains(ip IP) bool] *)
Definition Contains (n : IPNet) (ip : IP) : bool :=
  let '(nn, m) := networkNumberAndMask n in
  let ip := match To4 ip with Some x => x | None => ip end in
  if negb (length ip =? length nn)%nat then false
  else masked_eqb nn m ip.

(** The network that [net.ParseCIDR] returns for the text of an IPv4
    block [a/p]: the mask is [CIDRMask(p, 32)] and the address is [a]
    masked with it; both have four octets. *)
Definition ipv4net (a : IP) (p : Z) : IPNet :=
  let m := default [] (CIDRMask p 32) in
  {| IPNet_IP := default [] (Mask a m); IPNet_Mask := m |}.

(** The 32-bit value of an address, most significant octet first. *)
Definition ipToZ (ip : IP) : Z := fold_left (λ acc b, acc * 256 + b) ip 0.

Definition ipOfZ (v : Z) : IP :=
  [v / 16777216 mod 256; v / 65536 mod 256; v / 256 mod 256; v mod 256].

(** [hexDigit]: the digit of a value in [0, 16). *)
Definition hexDigit (v : Z) : string :=
  match String.get (Z.to_nat v) "0123456789abcdef" with
  | Some c => String c ""
  | None => ""
  end.

(** [func hexString(b []byte) string]: two digits per byte. *)
Definition hexString (b : list Z) : string :=
  String.concat ""
    ((λ tn, hexDigit (Z.shiftr tn 4) +:+ hexDigit (Z.land tn 15)) <$> b).

(** [func appendHex(dst []byte, i uint32) []byte]: the digits of [i]
    without leading zeros. *)
Definition appendHex (i : Z) : string :=
  if i =? 0 then "0"
  else String.concat ""
         ((λ j, let v := Z.shiftr i (j * 4) in
                if 0 <? v then hexDigit (Z.land v 15) else "")
            <$> [7; 6; 5; 4; 3; 2; 1; 0]).

(** The eight 16-bit groups of a 16-octet address. *)
Fixpoint groups (ip : list Z) : list Z :=
  match ip with
  | a :: b :: rest => Z.lor (Z.shiftl a 8) b :: groups rest
  | _ => []
  end.

(** The number of zero groups at the head of a list of groups. *)
Fixpoint zeros (gs : list Z) : nat :=
  match gs with
  | 0 :: gs' => S (zeros gs')
  | _ => O
  end.

(** The first loop of the IPv6 rendering: [(zeroStart, zeroEnd)] is the
    first longest run of at least two zero groups; [gs] holds the groups
    from [i] on. *)
Fixpoint zeroRun (gs : list Z) (i : nat) (best : nat * nat) : nat * nat :=
  match gs with
  | [] => best
  | _ :: gs' =>
      let l := zeros gs in
      zeroRun gs' (S i)
        (if (2 <=? l)%nat && (best.2 - best.1 <? l)%nat then (i, (i + l)%nat)
         else best)
  end.

(** The second loop: the groups in hexadecimal, separated by colons,
    the run from [zs] to [ze] written as a double colon. *)
Fixpoint appendTo6 (fuel : nat) (gs : list Z) (zs ze i : nat) : string :=
  match fuel with
  | O => ""
  | S fuel' =>
      if (8 <=? i)%nat then ""
      else if (i =? zs)%nat then
        if (8 <=? ze)%nat then "::"
        else "::" +:+ appendHex (default 0 (gs !! ze))
                  +:+ appendTo6 fuel' gs zs ze (S ze)
      else (if (0 <? i)%nat then ":" else "")
             +:+ appendHex (default 0 (gs !! i))
             +:+ appendTo6 fuel' gs zs ze (S i)
  end.

(** [func (ip IP) String() string]: [<nil>] for an empty slice, a
    question mark and the bytes in hexadecimal for a length other than 4
    and 16, dotted decimal for a 4-octet address and for a 16-octet
    IPv4-mapped one, and the IPv6 text form otherwise. *)
Definition IP_String (ip : IP) : string :=
  if (length ip =? 0)%nat then "<nil>"
  else if negb (length ip =? 4)%nat && negb (length ip =? 16)%nat
       then "?" +:+ hexString ip
  else match To4 ip with
       | Some [a; b; c; d] =>
           pretty a +:+ "." +:+ pretty b +:+ "." +:+ pretty c +:+ "." +:+ pretty d
       | _ =>
           let gs := groups ip in
           let '(zs, ze) := zeroRun gs 0 (255, 255)%nat in
           appendTo6 8 gs zs ze 0
       end.

End net.

Import net.

(** [IP.String] on the kinds of address [scanNetwork] can hold: those of
    an IPv4 block, the 16-octet first address of an IPv4-mapped block
    and that of an IPv6 block. *)
Example IP_String_examples :
  IP_String [10; 0; 0; 4] = "10.0.0.4" ∧
  IP_String (v4InV6Prefix ++ [10; 0; 0; 4]) = "10.0.0.4" ∧
  IP_String [254; 128; 0; 0; 0; 0; 0; 0; 0; 0; 0; 0; 0; 0; 0; 0] = "fe80::" ∧
  IP_String [32; 1; 13; 184; 0; 0; 0; 0; 0; 0; 0; 0; 0; 0; 0; 1] = "2001:db8::1" ∧
  IP_String [0; 1; 0; 0; 0; 2; 0; 0; 0; 0; 0; 3; 0; 0; 0; 0] = "1:0:2::3:0:0" ∧
  IP_String [] = "<nil>" ∧
  IP_String [1; 2; 255] = "?0102ff".
Proof. vm_compute. repeat split. Qed.

(** ** [incIP] and the enumeration loop of [scanNetwork] *)

(** The loop [for i := 3; i >= 0; i--] of [incIP]; [k] is [i + 1]. *)
Fixpoint incIP_loop (k : nat) (newIP : IP) : IP :=
  match k with
  | O => newIP
  | S i =>
      match newIP !! i with
      | Some b =>
          if b <? 255 then <[i := b + 1]> newIP
          else incIP_loop i (<[i := 0]> newIP)
      | None => newIP
      end
  end.

(** [func incIP(ip net.IP) net.IP]; [None] is the nil result.  The result
    is a fresh slice ([make] and [copy]), so addresses already sent on the
    channel are never modified. *)
Definition incIP (ip : IP) : option IP :=
  match To4 ip with
  | None => None
  | Some ip4 => Some (incIP_loop 4 (take 4 ip4))
  end.

(** How the loop [for ipnet.Contains(ip) { ... }] of [scanNetwork] ended. *)
Inductive LoopExit :=
  | Exhausted   (* ipnet.Contains(ip) was false *)
  | NilBreak    (* incIP returned nil: break *)
  | OutOfFuel.  (* still running *)

(** The enumeration loop: the addresses sent on [ipChan], in order, and
    how the loop ended after at most [fuel] iterations. *)
Fixpoint enum_loop (fuel : nat) (n : IPNet) (ip : IP) : list IP * LoopExit :=
  match fuel with
  | O => ([], OutOfFuel)
  | S f =>
      if Contains n ip then
        match incIP ip with
        | Some ip' => let '(l, e) := enum_loop f n ip' in (ip :: l, e)
        | None => ([ip], NilBreak)
        end
      else ([], Exhausted)
  end.

(** ** Properties of the address arithmetic *)

(** Euclidean division by constants, then linear arithmetic. *)
Ltac dlia :=
  change (2 ^ 32) with 4294967296 in *;
  Z.div_mod_to_equations; lia.

Section Addresses.

Lemma is_ip4_inv ip :
  is_ip4 ip → ∃ a b c d, ip = [a; b; c; d] ∧ octet a ∧ octet b ∧ octet c ∧ octet d.
Proof.
  intros [Hl Hf].
  destruct ip as [|a [|b [|c [|d [|? ?]]]]]; simpl in Hl; try discriminate.
  exists a, b, c, d.
  repeat (apply Forall_cons in Hf as [? Hf]). auto.
Qed.

Lemma is_ip4_intro a b c d :
  octet a → octet b → octet c → octet d → is_ip4 [a; b; c; d].
Proof. intros. split; [reflexivity | by repeat apply Forall_cons_2]. Qed.

Lemma ipToZ_4 a b c d :
  ipToZ [a; b; c; d] = a * 16777216 + b * 65536 + c * 256 + d.
Proof. unfold ipToZ; simpl. lia. Qed.

Lemma ipToZ_range ip : is_ip4 ip → 0 <= ipToZ ip < 2 ^ 32.
Proof.
  intros (a & b & c & d & -> & Ha & Hb & Hc & Hd)%is_ip4_inv.
  rewrite ipToZ_4. unfold octet in *. lia.
Qed.

Lemma ipOfZ_ip4 v : is_ip4 (ipOfZ v).
Proof.
  unfold ipOfZ. apply is_ip4_intro; unfold octet; apply Z.mod_pos_bound; lia.
Qed.

Lemma ipOfZ_ipToZ ip : is_ip4 ip → ipOfZ (ipToZ ip) = ip.
Proof.
  intros (a & b & c & d & -> & Ha & Hb & Hc & Hd)%is_ip4_inv.
  rewrite ipToZ_4. unfold ipOfZ, octet in *.
  repeat f_equal; dlia.
Qed.

Lemma ipToZ_ipOfZ v : 0 <= v < 2 ^ 32 → ipToZ (ipOfZ v) = v.
Proof. intros Hv. unfold ipOfZ. rewrite ipToZ_4. dlia. Qed.

Lemma incIP_ip4 a b c d :
  octet a → octet b → octet c → octet d →
  incIP [a; b; c; d] = Some (ipOfZ ((ipToZ [a; b; c; d] + 1) mod 2 ^ 32)).
Proof.
  intros Ha Hb Hc Hd. rewrite ipToZ_4. unfold octet in *.
  unfold incIP, To4; simpl.
  destruct (Z.ltb_spec d 255); simpl; [unfold ipOfZ; repeat f_equal; dlia|].
  destruct (Z.ltb_spec c 255); simpl; [unfold ipOfZ; repeat f_equal; dlia|].
  destruct (Z.ltb_spec b 255); simpl; [unfold ipOfZ; repeat f_equal; dlia|].
  destruct (Z.ltb_spec a 255); simpl; unfold ipOfZ; repeat f_equal; dlia.
Qed.

Lemma incIP_value ip :
  is_ip4 ip → incIP ip = Some (ipOfZ ((ipToZ ip + 1) mod 2 ^ 32)).
Proof.
  intros (a & b & c & d & -> & Ha & Hb & Hc & Hd)%is_ip4_inv.
  by apply incIP_ip4.
Qed.

End Addresses.

Section Blocks.

(** The nine octets a mask can have. *)
Definition mask_octets : list Z := [0; 128; 192; 224; 240; 248; 252; 254; 255].

Definition land_mask_check : bool :=
  forallb (λ m, forallb (λ x,
    Z.land x m =? x / (256 - m) * (256 - m)) (seqZ 0 256)) mask_octets.

Lemma land_mask_octet m x :
  m ∈ mask_octets → octet x → Z.land x m = x / (256 - m) * (256 - m).
Proof.
  intros Hm Hx.
  assert (Hc : land_mask_check = true) by (vm_compute; reflexivity).
  unfold land_mask_check in Hc.
  rewrite forallb_forall in Hc.
  specialize (Hc m). rewrite forallb_forall in Hc.
  apply Z.eqb_eq, Hc.
  - by apply list_elem_of_In.
  - apply list_elem_of_In, elem_of_seqZ. unfold octet in Hx. lia.
Qed.

Lemma land_mask_octet_range m x :
  m ∈ mask_octets → octet x → octet (Z.land x m).
Proof.
  intros Hm Hx. rewrite land_mask_octet by done.
  unfold mask_octets in Hm. unfold octet in *.
  repeat (apply elem_of_cons in Hm as [-> | Hm]; [dlia|]).
  by apply elem_of_nil in Hm.
Qed.

Ltac mask_literals :=
  repeat match goal with
  | |- context [Z.land ?x ?m] =>
      rewrite (land_mask_octet m x)
        by (first [ unfold mask_octets; set_solver
                  | assumption
                  | apply land_mask_octet_range;
                    [unfold mask_octets; set_solver | assumption] ])
  end.

Lemma prefix_cases p :
  0 <= p <= 32 →
  Exists (eq p) (seqZ 0 33).
Proof. intros. apply Exists_exists. exists p. split; [apply elem_of_seqZ; lia | done]. Qed.

Lemma Contains_ipv4net_masks a0 a1 a2 a3 x0 x1 x2 x3 p m0 m1 m2 m3 :
  CIDRMask p 32 = Some [m0; m1; m2; m3] →
  Contains (ipv4net [a0; a1; a2; a3] p) [x0; x1; x2; x3] =
  (Z.land (Z.land a0 m0) m0 =? Z.land x0 m0) &&
  ((Z.land (Z.land a1 m1) m1 =? Z.land x1 m1) &&
   ((Z.land (Z.land a2 m2) m2 =? Z.land x2 m2) &&
    ((Z.land (Z.land a3 m3) m3 =? Z.land x3 m3) && true))).
Proof. intros H. unfold ipv4net. rewrite H. reflexivity. Qed.

Lemma Contains_ipv4net a p ip :
  is_ip4 a → 0 <= p <= 32 → is_ip4 ip →
  Contains (ipv4net a p) ip = true ↔
  ipToZ ip / 2 ^ (32 - p) = ipToZ a / 2 ^ (32 - p).
Proof.
  intros (a0 & a1 & a2 & a3 & -> & Ha0 & Ha1 & Ha2 & Ha3)%is_ip4_inv Hp
         (x0 & x1 & x2 & x3 & -> & Hx0 & Hx1 & Hx2 & Hx3)%is_ip4_inv.
  rewrite !ipToZ_4.
  apply prefix_cases in Hp. vm_compute seqZ in Hp.
  repeat (apply Exists_cons in Hp as [-> | Hp]; [
    erewrite Contains_ipv4net_masks by (vm_compute; reflexivity);
    mask_literals; rewrite ?andb_true_iff, ?Z.eqb_eq;
    unfold octet in *; Z.div_mod_to_equations; lia |]).
  by apply Exists_nil in Hp.
Qed.

Lemma ipv4net_IP_masks a0 a1 a2 a3 p m0 m1 m2 m3 :
  CIDRMask p 32 = Some [m0; m1; m2; m3] →
  IPNet_IP (ipv4net [a0; a1; a2; a3] p) =
  [Z.land a0 m0; Z.land a1 m1; Z.land a2 m2; Z.land a3 m3].
Proof. intros H. unfold ipv4net. rewrite H. reflexivity. Qed.

(** The network address of the block: [a] with its host bits cleared. *)
Lemma ipv4net_IP a p :
  is_ip4 a → 0 <= p <= 32 →
  IPNet_IP (ipv4net a p) = ipOfZ (ipToZ a / 2 ^ (32 - p) * 2 ^ (32 - p)).
Proof.
  intros (a0 & a1 & a2 & a3 & -> & Ha0 & Ha1 & Ha2 & Ha3)%is_ip4_inv Hp.
  rewrite !ipToZ_4.
  apply prefix_cases in Hp. vm_compute seqZ in Hp.
  repeat (apply Exists_cons in Hp as [-> | Hp]; [
    erewrite ipv4net_IP_masks by (vm_compute; reflexivity);
    mask_literals; unfold ipOfZ, octet in *;
    repeat f_equal; Z.div_mod_to_equations; lia |]).
  by apply Exists_nil in Hp.
Qed.
End Blocks.

(** ** The block of a network and the run of the loop *)

Section Enumeration.

Definition block_size (p : Z) : Z := 2 ^ (32 - p).
Definition block_base (a : IP) (p : Z) : Z :=
  ipToZ a / block_size p * block_size p.

Lemma block_size_pos p : 0 <= p <= 32 → 0 < block_size p <= 2 ^ 32.
Proof.
  intros Hp. unfold block_size. split; [apply Z.pow_pos_nonneg; lia|].
  apply Z.pow_le_mono_r; lia.
Qed.

Lemma block_size_lt p : 1 <= p <= 32 → block_size p < 2 ^ 32.
Proof. intros Hp. unfold block_size. apply Z.pow_lt_mono_r; lia. Qed.

Lemma block_base_range a p :
  is_ip4 a → 0 <= p <= 32 →
  0 <= block_base a p ∧ block_base a p + block_size p <= 2 ^ 32.
Proof.
  intros Ha Hp. pose proof (ipToZ_range a Ha) as Hr.
  pose proof (block_size_pos p Hp) as Hs. unfold block_base.
  unfold block_size in *.
  replace (2 ^ 32) with (2 ^ p * 2 ^ (32 - p)) in *
    by (rewrite <- Z.pow_add_r by lia; f_equal; lia).
  set (s := 2 ^ (32 - p)) in *.
  assert (0 < 2 ^ p) by (apply Z.pow_pos_nonneg; lia).
  assert (ipToZ a / s < 2 ^ p) by (apply Z.div_lt_upper_bound; lia).
  assert (0 <= ipToZ a / s) by (apply Z.div_pos; lia).
  nia.
Qed.

Lemma div_eq_range v a s :
  0 < s → v / s = a / s ↔ a / s * s <= v < a / s * s + s.
Proof.
  intros Hs. split.
  - intros <-. pose proof (Z.mod_pos_bound v s Hs).
    pose proof (Z.div_mod v s). lia.
  - intros H. symmetry. apply (Z.div_unique v s (a / s) (v - a / s * s)); lia.
Qed.

(** An address is in the block exactly when its 32-bit value lies
    between the network and the broadcast address. *)
Lemma Contains_range a p ip :
  is_ip4 a → 0 <= p <= 32 → is_ip4 ip →
  Contains (ipv4net a p) ip = true ↔
  block_base a p <= ipToZ ip < block_base a p + block_size p.
Proof.
  intros Ha Hp Hip. rewrite Contains_ipv4net by done.
  apply div_eq_range, block_size_pos, Hp.
Qed.

Lemma ipToZ_ipOfZ_mod v : ipToZ (ipOfZ v) = v mod 2 ^ 32.
Proof.
  unfold ipOfZ. rewrite ipToZ_4.
  change 16777216 with (256 * 256 * 256).
  change 65536 with (256 * 256).
  change (2 ^ 32) with (256 * 256 * 256 * 256).
  rewrite <- !Z.div_div by lia.
  rewrite !Z.mod_eq by lia.
  rewrite <- !Z.div_div by lia. lia.
Qed.

Lemma ipOfZ_wrap v : ipOfZ (v mod 2 ^ 32) = ipOfZ v.
Proof. rewrite <- ipToZ_ipOfZ_mod. apply ipOfZ_ipToZ, ipOfZ_ip4. Qed.

Lemma incIP_ipOfZ v : incIP (ipOfZ v) = Some (ipOfZ (v + 1)).
Proof.
  rewrite incIP_value by apply ipOfZ_ip4.
  rewrite ipToZ_ipOfZ_mod, Zplus_mod_idemp_l. by rewrite ipOfZ_wrap.
Qed.

Lemma enum_loop_S fuel n ip :
  enum_loop (S fuel) n ip =
  if Contains n ip then
    match incIP ip with
    | Some ip' => let '(l, e) := enum_loop fuel n ip' in (ip :: l, e)
    | None => ([ip], NilBreak)
    end
  else ([], Exhausted).
Proof. reflexivity. Qed.

Variables (a : IP) (p : Z).
Hypothesis Ha : is_ip4 a.

(** From an address [v] of the block, the loop sends [v], [v+1], ... up
    to the broadcast address and leaves because the next address is
    outside the block. *)
Lemma enum_loop_from (k : nat) : ∀ v fuel,
  1 <= p <= 32 →
  block_base a p <= v →
  v + Z.of_nat k = block_base a p + block_size p →
  (k < fuel)%nat →
  enum_loop fuel (ipv4net a p) (ipOfZ v) =
  (ipOfZ <$> seqZ v (Z.of_nat k), Exhausted).
Proof.
  assert (Hp' : 1 <= p <= 32 → 0 <= p <= 32) by lia.
  induction k as [|k IH]; intros v fuel Hp Hv Hk Hf;
    (destruct fuel as [|fuel]; [lia|]); rewrite enum_loop_S;
    pose proof (block_base_range a p Ha (Hp' Hp)) as [Hb0 Hb1];
    pose proof (block_size_lt p Hp) as Hlt.
  - destruct (Contains (ipv4net a p) (ipOfZ v)) eqn:HC; [|done].
    apply Contains_range in HC; [|done|lia|apply ipOfZ_ip4].
    rewrite ipToZ_ipOfZ_mod in HC.
    exfalso. change (2 ^ 32) with 4294967296 in *.
    destruct (decide (v = 4294967296)) as [->|]; [change (4294967296 mod 4294967296) with 0 in HC; lia|].
    rewrite Z.mod_small in HC by lia. lia.
  - assert (HC : Contains (ipv4net a p) (ipOfZ v) = true).
    { apply Contains_range; [done|lia|apply ipOfZ_ip4|].
      rewrite ipToZ_ipOfZ_mod, Z.mod_small; lia. }
    rewrite HC, incIP_ipOfZ.
    rewrite (IH (v + 1) fuel) by lia.
    rewrite (seqZ_cons v) by lia. rewrite fmap_cons.
    by replace (Z.pred (Z.of_nat (S k))) with (Z.of_nat k) by lia.
Qed.

(** On [0.0.0.0/0] every address is in the block, so the loop never
    leaves: after any number of iterations it is still running. *)
Lemma Contains_slash0 v : Contains (ipv4net a 0) (ipOfZ v) = true.
Proof.
  apply Contains_range; [done|lia|apply ipOfZ_ip4|].
  pose proof (ipToZ_range _ (ipOfZ_ip4 v)).
  pose proof (block_base_range a 0 Ha ltac:(lia)).
  change (block_size 0) with (2 ^ 32) in *. lia.
Qed.

Lemma enum_loop_slash0 (fuel : nat) : ∀ v,
  enum_loop fuel (ipv4net a 0) (ipOfZ v) =
  (ipOfZ <$> seqZ v (Z.of_nat fuel), OutOfFuel).
Proof.
  induction fuel as [|fuel IH]; intros v; [done|].
  rewrite enum_loop_S, Contains_slash0, incIP_ipOfZ, IH.
  rewrite (seqZ_cons v) by lia. rewrite fmap_cons.
  by replace (Z.pred (Z.of_nat (S fuel))) with (Z.of_nat fuel) by lia.
Qed.

End Enumeration.

(** ** The enumeration of a block *)

Section EnumerationResults.

Lemma ipToZ_ipOfZ_seqZ b s :
  0 <= b → b + s <= 2 ^ 32 → ipToZ <$> (ipOfZ <$> seqZ b s) = seqZ b s.
Proof.
  intros Hb Hs. rewrite <- list_fmap_compose.
  rewrite <- (list_fmap_id (seqZ b s)) at 2.
  apply list_fmap_ext. intros i v Hv. simpl.
  apply lookup_seqZ in Hv as [-> Hi].
  apply ipToZ_ipOfZ. lia.
Qed.

Lemma last_ipOfZ_seqZ b s :
  0 < s → last (ipOfZ <$> seqZ b s) = Some (ipOfZ (b + s - 1)).
Proof.
  intros Hs. rewrite fmap_last.
  replace s with (Z.of_nat (S (Z.to_nat (s - 1)))) at 1 by lia.
  rewrite seqZ_S, last_snoc. simpl. do 2 f_equal. lia.
Qed.

(** For a prefix length of at least one, the loop sends the block from
    the network address to the broadcast address, every address once
    and in ascending order, and then leaves. *)
Theorem enum_loop_block a p fuel :
  is_ip4 a → 1 <= p <= 32 → (Z.to_nat (block_size p) < fuel)%nat →
  enum_loop fuel (ipv4net a p) (IPNet_IP (ipv4net a p)) =
  (ipOfZ <$> seqZ (block_base a p) (block_size p), Exhausted).
Proof.
  intros Ha Hp Hf.
  pose proof (block_size_pos p ltac:(lia)) as Hs.
  rewrite ipv4net_IP by (done || lia). fold (block_size p). fold (block_base a p).
  replace (seqZ (block_base a p) (block_size p))
    with (seqZ (block_base a p) (Z.of_nat (Z.to_nat (block_size p))))
    by (f_equal; lia).
  apply enum_loop_from; try done; lia.
Qed.

Corollary enum_loop_block_values a p fuel :
  is_ip4 a → 1 <= p <= 32 → (Z.to_nat (block_size p) < fuel)%nat →
  let sent := (enum_loop fuel (ipv4net a p) (IPNet_IP (ipv4net a p))).1 in
  ipToZ <$> sent = seqZ (block_base a p) (2 ^ (32 - p)) ∧
  Z.of_nat (length sent) = 2 ^ (32 - p) ∧
  NoDup sent ∧
  head sent = Some (IPNet_IP (ipv4net a p)) ∧
  last sent = Some (ipOfZ (block_base a p + 2 ^ (32 - p) - 1)).
Proof.
  intros Ha Hp Hf sent. subst sent. rewrite enum_loop_block by done. cbn [fst].
  pose proof (block_size_pos p ltac:(lia)) as Hs.
  pose proof (block_base_range a p Ha ltac:(lia)) as [Hb0 Hb1].
  fold (block_size p).
  assert (Hv : ipToZ <$> (ipOfZ <$> seqZ (block_base a p) (block_size p))
               = seqZ (block_base a p) (block_size p))
    by (apply ipToZ_ipOfZ_seqZ; lia).
  split; [done|]. split; [|split; [|split]].
  - rewrite length_fmap, length_seqZ. lia.
  - apply (NoDup_fmap_1 ipToZ). rewrite Hv. apply NoDup_seqZ.
  - rewrite ipv4net_IP by (done || lia).
    rewrite (seqZ_cons (block_base a p)) by lia. done.
  - apply last_ipOfZ_seqZ. lia.
Qed.

Lemma enum_loop_no_nil_break fuel : ∀ n ip,
  is_ip4 ip → (enum_loop fuel n ip).2 ≠ NilBreak.
Proof.
  induction fuel as [|fuel IH]; intros n ip Hip; [done|].
  rewrite enum_loop_S.
  destruct (Contains n ip); [|done].
  rewrite incIP_value by done.
  specialize (IH n (ipOfZ ((ipToZ ip + 1) mod 2 ^ 32)) (ipOfZ_ip4 _)).
  by destruct (enum_loop fuel n _).
Qed.

(** C9: on a 4-octet address [incIP] returns the 4-octet address whose
    32-bit value is the input's plus one modulo 2^32 (so 255.255.255.255
    gives 0.0.0.0 and never nil), and the loop of [scanNetwork], started
    on such an address, never leaves through its nil check. *)
Theorem incIP_ipv4_successor (ip : IP) :
  is_ip4 ip →
  let next := ipOfZ ((ipToZ ip + 1) mod 2 ^ 32) in
  incIP ip = Some next ∧
  is_ip4 next ∧
  ipToZ next = (ipToZ ip + 1) mod 2 ^ 32 ∧
  ∀ fuel n, (enum_loop fuel n ip).2 ≠ NilBreak.
Proof.
  intros Hip next.
  split; [by apply incIP_value|]. split; [apply ipOfZ_ip4|]. split.
  - apply ipToZ_ipOfZ, Z.mod_pos_bound. lia.
  - intros fuel n. by apply enum_loop_no_nil_break.
Qed.

Lemma is_ip4_broadcast : is_ip4 [255; 255; 255; 255].
Proof. apply is_ip4_intro; unfold octet; lia. Qed.

Lemma incIP_ipv4_successor_witness :
  let next := ipOfZ ((ipToZ [255; 255; 255; 255] + 1) mod 2 ^ 32) in
  incIP [255; 255; 255; 255] = Some next ∧
  is_ip4 next ∧
  ipToZ next = (ipToZ [255; 255; 255; 255] + 1) mod 2 ^ 32 ∧
  ∀ fuel n, (enum_loop fuel n [255; 255; 255; 255]).2 ≠ NilBreak.
Proof. apply (incIP_ipv4_successor [255; 255; 255; 255]), is_ip4_broadcast. Defined.

Example incIP_broadcast_wraps : incIP [255; 255; 255; 255] = Some [0; 0; 0; 0].
Proof. reflexivity. Qed.

Example incIP_carry : incIP [192; 168; 1; 255] = Some [192; 168; 2; 0].
Proof. reflexivity. Qed.

Example incIP_ipv6_nil : incIP [254;128;0;0;0;0;0;0;0;0;0;0;0;0;0;1] = None.
Proof. reflexivity. Qed.

Example enum_slash30 :
  enum_loop 10 (ipv4net [10; 0; 0; 6] 30) (IPNet_IP (ipv4net [10; 0; 0; 6] 30)) =
  ([[10; 0; 0; 4]; [10; 0; 0; 5]; [10; 0; 0; 6]; [10; 0; 0; 7]], Exhausted).
Proof. vm_compute. reflexivity. Qed.

Example enum_top_block :
  enum_loop 10 (ipv4net [255; 255; 255; 254] 31)
               (IPNet_IP (ipv4net [255; 255; 255; 254] 31)) =
  ([[255; 255; 255; 254]; [255; 255; 255; 255]], Exhausted).
Proof. vm_compute. reflexivity. Qed.

Definition zero_ip : IP := [0; 0; 0; 0].

Lemma is_ip4_zero : is_ip4 zero_ip.
Proof. apply is_ip4_intro; unfold octet; lia. Qed.

Lemma slash0_IP : IPNet_IP (ipv4net zero_ip 0) = ipOfZ 0.
Proof. reflexivity. Qed.

(** C1 at [0.0.0.0/0]: after any number [fuel] of iterations the loop
    has sent [fuel] addresses and is still running; it sends more than
    2^32 addresses, and the one sent after 255.255.255.255 is 0.0.0.0
    again. *)
Theorem enum_slash0_overruns (fuel : nat) :
  enum_loop fuel (ipv4net zero_ip 0) (IPNet_IP (ipv4net zero_ip 0)) =
    (ipOfZ <$> seqZ 0 (Z.of_nat fuel), OutOfFuel) ∧
  ipOfZ (2 ^ 32) = ipOfZ 0.
Proof.
  split; [|reflexivity].
  rewrite slash0_IP. apply enum_loop_slash0, is_ip4_zero.
Qed.

(** C3 at [0.0.0.0/0]: the loop is never left, whatever the number of
    iterations. *)
Theorem enum_slash0_never_exhausted (fuel : nat) :
  (enum_loop fuel (ipv4net zero_ip 0) (IPNet_IP (ipv4net zero_ip 0))).2 = OutOfFuel.
Proof.
  rewrite slash0_IP, enum_loop_slash0 by apply is_ip4_zero. done.
Qed.

(** For every other IPv4 block the loop terminates, right after the
    broadcast address has been sent. *)
Theorem enum_loop_terminates a p :
  is_ip4 a → 1 <= p <= 32 →
  ∃ sent, (∀ fuel, (Z.to_nat (block_size p) < fuel)%nat →
             enum_loop fuel (ipv4net a p) (IPNet_IP (ipv4net a p)) = (sent, Exhausted)) ∧
          last sent = Some (ipOfZ (block_base a p + block_size p - 1)).
Proof.
  intros Ha Hp. eexists. split.
  - intros fuel Hf. by apply enum_loop_block.
  - apply last_ipOfZ_seqZ. pose proof (block_size_pos p). lia.
Qed.

(** An IPv6 block: the address has sixteen octets, [incIP] returns nil
    and the loop ends through its nil check after the first address. *)
Example enum_ipv6_one_address :
  let ip := [254; 128; 0; 0; 0; 0; 0; 0; 0; 0; 0; 0; 0; 0; 0; 0] in
  enum_loop 10 {| IPNet_IP := ip; IPNet_Mask := default [] (CIDRMask 64 128) |} ip
  = ([ip], NilBreak).
Proof. vm_compute. reflexivity. Qed.

End EnumerationResults.

(** ** Records, values and the SNMP client *)

(** [type Supply struct]: a printer supply (toner, ink). *)
Module Supply.
Record t := mk { Description : string; Level : Z; MaxCapacity : Z }.
(** The zero value [Supply{}]. *)
Definition zero : t := mk "" 0 0.
End Supply.

(** [type Tray struct]: a paper tray. *)
Module Tray.
Record t := mk { Name : string; CurrentLevel : Z; MaxCapacity : Z }.
(** The zero value [Tray{}]. *)
Definition zero : t := mk "" 0 0.
End Tray.

(** Go's [float64], as the IEEE 754 binary64 format of the Standard
    Library's executable specification: round to nearest, ties to even. *)
Module float64.
Definition prec : Z := 53.
Definition emax : Z := 1024.
Definition t := spec_float.

(** [float64(n)] for an [int] [n]. *)
Definition of_int (n : Z) : t := binary_normalize prec emax n 0 false.
Definition div (x y : t) : t := SFdiv prec emax x y.
Definition mul (x y : t) : t := SFmul prec emax x y.

(** [int(x)]: the fraction is discarded (truncation towards zero).  Where
    the value does not fit the 64-bit [int] Go leaves the result to the
    implementation; amd64 gives the smallest [int]. *)
Definition min_int : Z := - 2 ^ 63.
Definition to_int (x : t) : Z :=
  match x with
  | S754_zero _ => 0
  | S754_finite s m e =>
      let mag := if 0 <=? e then Z.pos m * 2 ^ e else Z.pos m / 2 ^ (- e) in
      let v := if s then - mag else mag in
      if (min_int <=? v) && (v <? 2 ^ 63) then v else min_int
  | _ => min_int
  end.
End float64.

(** [percent := (float64(level) / float64(capacity)) * 100] followed by
    [int(percent)], as in both report blocks of [pollPrinter]. *)
Definition percent (level capacity : Z) : Z :=
  float64.to_int
    (float64.mul (float64.div (float64.of_int level) (float64.of_int capacity))
                 (float64.of_int 100)).

(** [%d] of [fmt.Printf]: decimal, with a minus sign when negative. *)
Definition fmt_d (n : Z) : string := pretty n.

(** The description printed for a supply. *)
Definition supplyDesc (s : Supply.t) : string :=
  if bool_decide (Supply.Description s = "") then "Unknown Supply"
  else Supply.Description s.

(** What follows the level on a supply's line. *)
Definition supplySuffix (s : Supply.t) : string :=
  if (0 <? Supply.MaxCapacity s) && (0 <=? Supply.Level s) then
    " (" +:+ fmt_d (percent (Supply.Level s) (Supply.MaxCapacity s))
         +:+ "% of " +:+ fmt_d (Supply.MaxCapacity s) +:+ ")"
  else if Supply.Level s =? -3 then " (unknown)"
  else "".

(** One iteration of [for _, supply := range supplies]: the printed line,
    without its final newline. *)
Definition supplyLine (s : Supply.t) : string :=
  "    - " +:+ supplyDesc s +:+ ": " +:+ fmt_d (Supply.Level s) +:+ supplySuffix s.

Definition trayName (t : Tray.t) : string :=
  if bool_decide (Tray.Name t = "") then "Unknown Tray" else Tray.Name t.

Definition traySuffix (t : Tray.t) : string :=
  if (0 <? Tray.MaxCapacity t) && (0 <=? Tray.CurrentLevel t) then
    " (" +:+ fmt_d (percent (Tray.CurrentLevel t) (Tray.MaxCapacity t))
         +:+ "% of " +:+ fmt_d (Tray.MaxCapacity t) +:+ ")"
  else "".

(** One iteration of [for _, tray := range trays]. *)
Definition trayLine (t : Tray.t) : string :=
  "    - " +:+ trayName t +:+ ": " +:+ fmt_d (Tray.CurrentLevel t) +:+ traySuffix t.

(** Go iterates over a map in an unspecified order: a [range] over a map
    visits its entries in some permutation, which may differ from one
    loop to the next. *)
Record RangeOrder := {
  range : ∀ A : Type, gmap Z A → list (Z * A);
  range_perm : ∀ (A : Type) (m : gmap Z A), range A m ≡ₚ map_to_list m
}.

Definition key_order : RangeOrder :=
  {| range := λ A m, map_to_list m; range_perm := λ A m, reflexivity _ |}.

(** [%v] of an [error]; the nil error prints as [<nil>]. *)
Definition fmt_err (err : option string) : string := default "<nil>" err.

(** The "Supplies" part of the report: [err] is the result of the walk
    and [supplies] the map it filled. *)
Definition suppliesBlock (ro : RangeOrder) (err : option string)
    (supplies : gmap Z Supply.t) : list string :=
  if bool_decide (err = None) && (0 <? size supplies)%nat then
    "  Supplies:" :: ((λ kv, supplyLine kv.2) <$> range ro _ supplies)
  else ["  Supplies: (No data available: " +:+ fmt_err err +:+ ")"].

(** The "Paper Trays" part of the report. *)
Definition traysBlock (ro : RangeOrder) (err : option string)
    (trays : gmap Z Tray.t) : list string :=
  if bool_decide (err = None) && (0 <? size trays)%nat then
    "  Paper Trays:" :: ((λ kv, trayLine kv.2) <$> range ro _ trays)
  else ["  Paper Trays: (No data available: " +:+ fmt_err err +:+ ")"].

(** ** Percentages and markers *)

Section Rendering.

Example percent_80_100 : percent 80 100 = 80.
Proof. vm_compute. reflexivity. Qed.

Example percent_150_200 : percent 150 200 = 75.
Proof. vm_compute. reflexivity. Qed.

Example supplyLine_readme :
  supplyLine (Supply.mk "Black Ink" 80 100) = "    - Black Ink: 80 (80% of 100)".
Proof. vm_compute. reflexivity. Qed.

Example trayLine_readme :
  trayLine (Tray.mk "Tray 1" 150 200) = "    - Tray 1: 150 (75% of 200)".
Proof. vm_compute. reflexivity. Qed.

(** The quotient 29/100 is rounded to the double just below 0.29 and the
    product with 100 to the double just below 29. *)
Example float_product_29_100 :
  float64.mul (float64.div (float64.of_int 29) (float64.of_int 100))
              (float64.of_int 100)
  = S754_finite false 8162774324609023 (-48).
Proof. vm_compute. reflexivity. Qed.

Lemma append_empty_r (s : string) : s +:+ "" = s.
Proof.
  induction s as [|c s IH]; [done|].
  change (String c (s +:+ "") = String c s). by rewrite IH.
Qed.

(** No percentage without a positive capacity and a non-negative level. *)
Lemma supplySuffix_no_percent s :
  Supply.MaxCapacity s <= 0 ∨ Supply.Level s < 0 →
  supplySuffix s = if Supply.Level s =? -3 then " (unknown)" else "".
Proof.
  intros H. unfold supplySuffix.
  destruct (Z.ltb_spec 0 (Supply.MaxCapacity s)), (Z.leb_spec 0 (Supply.Level s));
    simpl; try done; lia.
Qed.

Lemma traySuffix_no_percent t :
  Tray.MaxCapacity t <= 0 ∨ Tray.CurrentLevel t < 0 → traySuffix t = "".
Proof.
  intros H. unfold traySuffix.
  destruct (Z.ltb_spec 0 (Tray.MaxCapacity t)), (Z.leb_spec 0 (Tray.CurrentLevel t));
    simpl; try done; lia.
Qed.

(** C4 at level 29 of capacity 100: the exact quotient 100 * 29 / 100 is
    29, the report prints 28, for a supply and for a tray. *)
Theorem percent_29_100 :
  100 * 29 / 100 = 29 ∧
  percent 29 100 = 28 ∧
  supplyLine (Supply.mk "Black Ink" 29 100) = "    - Black Ink: 29 (28% of 100)" ∧
  trayLine (Tray.mk "Tray 1" 29 100) = "    - Tray 1: 29 (28% of 100)".
Proof. repeat split; vm_compute; reflexivity. Qed.

(** A supply at the sentinel level -3 is marked "(unknown)", without a
    percentage, whatever its capacity. *)
Lemma supplyLine_sentinel s :
  Supply.Level s = -3 →
  supplyLine s = "    - " +:+ supplyDesc s +:+ ": -3 (unknown)".
Proof.
  intros H. unfold supplyLine.
  rewrite supplySuffix_no_percent by lia. rewrite H. done.
Qed.

(** A tray with a negative level gets no marker at all. *)
Lemma trayLine_negative t :
  Tray.CurrentLevel t < 0 →
  trayLine t = "    - " +:+ trayName t +:+ ": " +:+ fmt_d (Tray.CurrentLevel t).
Proof.
  intros H. unfold trayLine. rewrite traySuffix_no_percent by lia.
  by rewrite append_empty_r.
Qed.

(** C5 at a tray of level -3: the supply line carries the "(unknown)"
    marker, the tray line of the same level and capacity does not. *)
Theorem tray_sentinel_unmarked :
  supplyLine (Supply.mk "Black Ink" (-3) 100) = "    - Black Ink: -3 (unknown)" ∧
  trayLine (Tray.mk "Tray 1" (-3) 100) = "    - Tray 1: -3".
Proof. split; vm_compute; reflexivity. Qed.

End Rendering.

(** ** Go's [strings] and [strconv], as far as the program uses them *)

Module strings.

(** [strings.Split(s, sep)] for a separator of one byte: the pieces of [s]
    between the separators, at least one piece. *)
Fixpoint Split (s : string) (sep : ascii) : list string :=
  match s with
  | EmptyString => [""]
  | String c s' =>
      if bool_decide (c = sep) then "" :: Split s' sep
      else match Split s' sep with
           | h :: t => String c h :: t
           | [] => [String c ""]
           end
  end.

(** [strings.HasPrefix(s, prefix)] *)
Definition HasPrefix (s prefix : string) : bool := String.prefix prefix s.

End strings.

Module strconv.

Definition maxUint64 : Z := 2 ^ 64 - 1.
Definition cutoff : Z := maxUint64 / 10 + 1.

Definition digit (c : ascii) : option Z := Z.of_nat <$> Ascii.is_nat c.

(** The fast path of [Atoi]: [n = n*10 + int(ch)], a syntax error at the
    first byte that is no digit. *)
Fixpoint fast_digits (s : string) (n : Z) : option Z :=
  match s with
  | EmptyString => Some n
  | String c s' =>
      match digit c with
      | Some d => fast_digits s' (n * 10 + d)
      | None => None
      end
  end.

Inductive uparse := USyntax | URange | UOk (n : Z).

(** The digit loop of [ParseUint(s, 10, 64)]. *)
Fixpoint ParseUint_loop (s : string) (n : Z) : uparse :=
  match s with
  | EmptyString => UOk n
  | String c s' =>
      match digit c with
      | None => USyntax
      | Some d =>
          if cutoff <=? n then URange
          else if maxUint64 <? n * 10 + d then URange
          else ParseUint_loop s' (n * 10 + d)
      end
  end.

(** [ParseInt(s, 10, 0)]: the value, whatever the error; a syntax error
    gives 0 and a range error the nearest [int64]. *)
Definition ParseInt (s : string) : Z :=
  match s with
  | EmptyString => 0
  | String c r =>
      let '(neg, body) :=
        if bool_decide (c = "+"%char) then (false, r)
        else if bool_decide (c = "-"%char) then (true, r)
        else (false, s) in
      match body with
      | EmptyString => 0
      | _ =>
          match ParseUint_loop body 0 with
          | USyntax => 0
          | URange => if neg then - 2 ^ 63 else 2 ^ 63 - 1
          | UOk un =>
              if negb neg && (2 ^ 63 <=? un) then 2 ^ 63 - 1
              else if neg && (2 ^ 63 <? un) then - 2 ^ 63
              else if neg then - un else un
          end
      end
  end.

(** [strconv.Atoi(s)] with its error dropped, as in [index, _ := ...]. *)
Definition Atoi (s : string) : Z :=
  if (0 <? String.length s)%nat && (String.length s <? 19)%nat then
    match s with
    | EmptyString => 0
    | String c r =>
        let signed := bool_decide (c = "-"%char) || bool_decide (c = "+"%char) in
        let body := if signed then r else s in
        if signed && (String.length body <? 1)%nat then 0
        else match fast_digits body 0 with
             | None => 0
             | Some n => if bool_decide (c = "-"%char) then - n else n
             end
    end
  else ParseInt s.

End strconv.

(** ** The SNMP client *)

Module gosnmp.

(** The dynamic type of [SnmpPDU.Value], as far as the program
    distinguishes it: a [string], an [int], or anything else. *)
Inductive Value := VString (s : string) | VInt (n : Z) | VOther.

(** [SnmpPDU.Type]: only [NoSuchObject] is tested. *)
Inductive Asn1BER := NoSuchObject | OtherType.

Record SnmpPDU := { Name : string; Type_ : Asn1BER; Value_ : Value }.

(** A call that returns [(result, error)]; an error is its message. *)
Inductive result (A : Type) := Ok (a : A) | Err (e : string).
Arguments Ok {A} a.
Arguments Err {A} e.

(** What one target answers on one connection: [Connect] gives an error
    or nil, [Get] the variables of the response or an error, [Walk] the
    entries handed to the callback and the error it ends with. *)
Record Device := {
  Connect : option string;
  Get : list string → result (list SnmpPDU);
  Walk : string → list SnmpPDU * option string
}.

End gosnmp.

Import gosnmp.

(** ** The walk callbacks of [pollPrinter] *)

(** The callback of the walk over [prtMarkerSuppliesTable]; it always
    returns nil, so only its effect on [supplies] is kept. *)
Definition supplyWalkFn (supplies : gmap Z Supply.t) (variable : SnmpPDU)
    : gmap Z Supply.t :=
  let parts := strings.Split (Name variable) "." in
  if (length parts <? 2)%nat then supplies
  else
    let index := strconv.Atoi (default "" (last parts)) in
    let supply := default Supply.zero (supplies !! index) in
    let supply :=
      if strings.HasPrefix (Name variable) ".1.3.6.1.2.1.43.11.1.1.6" then
        match Value_ variable with
        | VString str => Supply.mk str (Supply.Level supply) (Supply.MaxCapacity supply)
        | _ => supply
        end
      else if strings.HasPrefix (Name variable) ".1.3.6.1.2.1.43.11.1.1.9" then
        match Value_ variable with
        | VInt val => Supply.mk (Supply.Description supply) val (Supply.MaxCapacity supply)
        | _ => supply
        end
      else if strings.HasPrefix (Name variable) ".1.3.6.1.2.1.43.11.1.1.8" then
        match Value_ variable with
        | VInt val => Supply.mk (Supply.Description supply) (Supply.Level supply) val
        | _ => supply
        end
      else supply in
    <[index := supply]> supplies.

(** The callback of the walk over [prtInputTable]. *)
Definition trayWalkFn (trays : gmap Z Tray.t) (variable : SnmpPDU)
    : gmap Z Tray.t :=
  let parts := strings.Split (Name variable) "." in
  if (length parts <? 2)%nat then trays
  else
    let index := strconv.Atoi (default "" (last parts)) in
    let tray := default Tray.zero (trays !! index) in
    let tray :=
      if strings.HasPrefix (Name variable) ".1.3.6.1.2.1.43.8.2.1.2" then
        match Value_ variable with
        | VString str => Tray.mk str (Tray.CurrentLevel tray) (Tray.MaxCapacity tray)
        | _ => tray
        end
      else if strings.HasPrefix (Name variable) ".1.3.6.1.2.1.43.8.2.1.9" then
        match Value_ variable with
        | VInt val => Tray.mk (Tray.Name tray) val (Tray.MaxCapacity tray)
        | _ => tray
        end
      else if strings.HasPrefix (Name variable) ".1.3.6.1.2.1.43.8.2.1.8" then
        match Value_ variable with
        | VInt val => Tray.mk (Tray.Name tray) (Tray.CurrentLevel tray) val
        | _ => tray
        end
      else tray in
    <[index := tray]> trays.

(** [params.Walk(root, fn)]: the callback runs on the entries in the
    order of the walk, starting from the empty map. *)
Definition walkSupplies (entries : list SnmpPDU) : gmap Z Supply.t :=
  fold_left supplyWalkFn entries ∅.

Definition walkTrays (entries : list SnmpPDU) : gmap Z Tray.t :=
  fold_left trayWalkFn entries ∅.

(** ** [pollPrinter] and [checkSNMP] *)

(** [var printerStatusMap = map[int]string{...}] *)
Definition printerStatusMap : gmap Z string :=
  list_to_map [(1, "other"); (2, "unknown"); (3, "idle"); (4, "printing"); (5, "warmup")].

(** The body of [for _, variable := range result.Variables]: the lines
    one variable of the batch response contributes. *)
Definition variableLines (variable : SnmpPDU) : list string :=
  if bool_decide (Name variable = ".1.3.6.1.2.1.1.1.0") then
    match Value_ variable with
    | VString str =>
        if bool_decide (str = "") then [] else ["  System Description: " +:+ str]
    | _ => []
    end
  else if bool_decide (Name variable = ".1.3.6.1.2.1.43.5.1.1.16.1") then
    match Value_ variable with
    | VString str =>
        if bool_decide (str = "") then [] else ["  Printer Name: " +:+ str]
    | _ => []
    end
  else if bool_decide (Name variable = ".1.3.6.1.2.1.25.3.5.1.1.1") then
    match Value_ variable with
    | VInt val =>
        match printerStatusMap !! val with
        | Some status => ["  Printer Status: " +:+ status]
        | None => ["  Printer Status: " +:+ fmt_d val +:+ " (unknown)"]
        end
    | _ => []
    end
  else if bool_decide (Name variable = ".1.3.6.1.2.1.43.10.2.1.4.1") then
    match Value_ variable with
    | VInt val => ["  Total Pages Printed: " +:+ fmt_d val]
    | _ => []
    end
  else [].

Definition pollOids : list string :=
  [".1.3.6.1.2.1.1.1.0"; ".1.3.6.1.2.1.25.3.5.1.1.1";
   ".1.3.6.1.2.1.43.5.1.1.16.1"; ".1.3.6.1.2.1.43.10.2.1.4.1"].

Definition suppliesRoot : string := ".1.3.6.1.2.1.43.11.1.1".
Definition traysRoot : string := ".1.3.6.1.2.1.43.8.2.1".

(** The two table sections of a report. *)
Definition tableLines (ro : RangeOrder) (dev : Device) : list string :=
  let '(sentries, serr) := Walk dev suppliesRoot in
  let '(tentries, terr) := Walk dev traysRoot in
  suppliesBlock ro serr (walkSupplies sentries)
  ++ traysBlock ro terr (walkTrays tentries).

(** [func pollPrinter(ip string, community string)]: the lines written to
    standard output, given what the target answers and the order in which
    the two maps are ranged over. *)
Definition pollPrinter (ro : RangeOrder) (ip community : string) (dev : Device)
    : list string :=
  match Connect dev with
  | Some err => ["❌ Failed to connect to " +:+ ip +:+ ": " +:+ err]
  | None =>
      match Get dev pollOids with
      | Err err => ["❌ SNMP Get error for " +:+ ip +:+ ": " +:+ err]
      | Ok variables =>
          [""; "🖨️ Printer Report for " +:+ ip +:+ ":"]
          ++ concat (variableLines <$> variables)
          ++ tableLines ro dev
      end
  end.

(** The first non-empty string among the variables of the naming
    response, or the empty string. *)
Fixpoint firstName (variables : list SnmpPDU) : string :=
  match variables with
  | [] => ""
  | variable :: rest =>
      match Value_ variable with
      | VString str => if bool_decide (str = "") then firstName rest else str
      | _ => firstName rest
      end
  end.

Definition nameOids : list string :=
  [".1.3.6.1.2.1.43.5.1.1.16.1"; ".1.3.6.1.2.1.1.1.0"; ".1.3.6.1.2.1.1.5.0"].

(** [func checkSNMP(ip string, community string) bool]: the result and
    the lines written to standard output. *)
Definition checkSNMP (ip community : string) (dev : Device) : bool * list string :=
  match Connect dev with
  | Some _ => (false, [])
  | None =>
      match Get dev [".1.3.6.1.2.1.25.3.5.1.1.1"] with
      | Err _ => (false, [])
      | Ok [] => (false, [])
      | Ok (v :: _) =>
          match Type_ v with
          | NoSuchObject => (false, [])
          | OtherType =>
              let name :=
                match Get dev nameOids with
                | Ok variables => firstName variables
                | Err _ => ""
                end in
              if bool_decide (name = "")
              then (true, ["🎯 Found printer: " +:+ ip +:+ " → (unnamed)"])
              else (true, ["🎯 Found printer: " +:+ ip +:+ " → " +:+ name])
          end
      end
  end.

(** The reports of [main]'s loop [for _, printer := range printers]: the
    [i]-th call of [pollPrinter] opens its own connection and sees the
    answers [answers i]; it ranges over its maps in the order [ro i]. *)
Definition pollReports (ro : nat → RangeOrder) (community : string)
    (answers : nat → Device) (printers : list string) : list (list string) :=
  imap (λ i printer, pollPrinter (ro i) printer community (answers i)) printers.

(** ** Records keyed by table index *)

Section WalkCallbacks.

(** The key of an entry: the last component of its name, read by [Atoi]. *)
Definition pduIndex (name : string) : Z :=
  strconv.Atoi (default "" (last (strings.Split name "."))).

(** A name with at least two components, that is, with a dot in it. *)
Definition dotted (name : string) : Prop :=
  (2 <= length (strings.Split name "."))%nat.

(** The field a name selects in a supply record, if any. *)
Inductive Column := ColText | ColLevel | ColCapacity | ColNone.

Definition supplyColumn (name : string) : Column :=
  if strings.HasPrefix name ".1.3.6.1.2.1.43.11.1.1.6" then ColText
  else if strings.HasPrefix name ".1.3.6.1.2.1.43.11.1.1.9" then ColLevel
  else if strings.HasPrefix name ".1.3.6.1.2.1.43.11.1.1.8" then ColCapacity
  else ColNone.

Definition trayColumn (name : string) : Column :=
  if strings.HasPrefix name ".1.3.6.1.2.1.43.8.2.1.2" then ColText
  else if strings.HasPrefix name ".1.3.6.1.2.1.43.8.2.1.9" then ColLevel
  else if strings.HasPrefix name ".1.3.6.1.2.1.43.8.2.1.8" then ColCapacity
  else ColNone.

Definition supplyStore (c : Column) (v : Value) (s : Supply.t) : Supply.t :=
  match c, v with
  | ColText, VString str => Supply.mk str (Supply.Level s) (Supply.MaxCapacity s)
  | ColLevel, VInt val => Supply.mk (Supply.Description s) val (Supply.MaxCapacity s)
  | ColCapacity, VInt val => Supply.mk (Supply.Description s) (Supply.Level s) val
  | _, _ => s
  end.

Definition trayStore (c : Column) (v : Value) (t : Tray.t) : Tray.t :=
  match c, v with
  | ColText, VString str => Tray.mk str (Tray.CurrentLevel t) (Tray.MaxCapacity t)
  | ColLevel, VInt val => Tray.mk (Tray.Name t) val (Tray.MaxCapacity t)
  | ColCapacity, VInt val => Tray.mk (Tray.Name t) (Tray.CurrentLevel t) val
  | _, _ => t
  end.

Lemma Split_length s sep : (1 <= length (strings.Split s sep))%nat.
Proof.
  induction s as [|c s IH]; simpl; [lia|].
  case_bool_decide; simpl; [lia|].
  destruct (strings.Split s sep); simpl in *; lia.
Qed.

(** An entry with a dotted name is stored under the index read from its
    last component; the record it updates is the one already stored
    there, or the zero record. *)
Lemma supplyWalkFn_dotted supplies variable :
  dotted (Name variable) →
  supplyWalkFn supplies variable =
  <[pduIndex (Name variable) :=
      supplyStore (supplyColumn (Name variable)) (Value_ variable)
        (default Supply.zero (supplies !! pduIndex (Name variable)))]> supplies.
Proof.
  intros Hd. unfold supplyWalkFn, dotted in *.
  destruct (Nat.ltb_spec (length (strings.Split (Name variable) ".")) 2); [lia|].
  unfold supplyColumn, pduIndex.
  repeat (destruct (strings.HasPrefix _ _); [by destruct (Value_ variable)|]).
  done.
Qed.

Lemma trayWalkFn_dotted trays variable :
  dotted (Name variable) →
  trayWalkFn trays variable =
  <[pduIndex (Name variable) :=
      trayStore (trayColumn (Name variable)) (Value_ variable)
        (default Tray.zero (trays !! pduIndex (Name variable)))]> trays.
Proof.
  intros Hd. unfold trayWalkFn, dotted in *.
  destruct (Nat.ltb_spec (length (strings.Split (Name variable) ".")) 2); [lia|].
  unfold trayColumn, pduIndex.
  repeat (destruct (strings.HasPrefix _ _); [by destruct (Value_ variable)|]).
  done.
Qed.

(** An entry without a dot in its name is skipped. *)
Lemma supplyWalkFn_undotted supplies variable :
  ¬ dotted (Name variable) → supplyWalkFn supplies variable = supplies.
Proof.
  intros Hd. unfold supplyWalkFn, dotted in *.
  destruct (Nat.ltb_spec (length (strings.Split (Name variable) ".")) 2); [done|lia].
Qed.

Lemma trayWalkFn_undotted trays variable :
  ¬ dotted (Name variable) → trayWalkFn trays variable = trays.
Proof.
  intros Hd. unfold trayWalkFn, dotted in *.
  destruct (Nat.ltb_spec (length (strings.Split (Name variable) ".")) 2); [done|lia].
Qed.

(** Records under other indices are left as they are. *)
Lemma supplyWalkFn_other supplies variable i :
  i ≠ pduIndex (Name variable) →
  supplyWalkFn supplies variable !! i = supplies !! i.
Proof.
  intros Hi. destruct (decide (dotted (Name variable))) as [Hd|Hd].
  - rewrite supplyWalkFn_dotted by done. by rewrite lookup_insert_ne.
  - by rewrite supplyWalkFn_undotted.
Qed.

Lemma trayWalkFn_other trays variable i :
  i ≠ pduIndex (Name variable) →
  trayWalkFn trays variable !! i = trays !! i.
Proof.
  intros Hi. destruct (decide (dotted (Name variable))) as [Hd|Hd].
  - rewrite trayWalkFn_dotted by done. by rewrite lookup_insert_ne.
  - by rewrite trayWalkFn_undotted.
Qed.

(** A name under none of the three prefixes changes no field: the record
    under its index is the one stored before, or a fresh zero record. *)
Lemma supplyWalkFn_no_column supplies variable :
  dotted (Name variable) → supplyColumn (Name variable) = ColNone →
  supplyWalkFn supplies variable !! pduIndex (Name variable) =
  Some (default Supply.zero (supplies !! pduIndex (Name variable))).
Proof.
  intros Hd Hc. rewrite supplyWalkFn_dotted by done.
  by rewrite lookup_insert_eq, Hc.
Qed.

Lemma trayWalkFn_no_column trays variable :
  dotted (Name variable) → trayColumn (Name variable) = ColNone →
  trayWalkFn trays variable !! pduIndex (Name variable) =
  Some (default Tray.zero (trays !! pduIndex (Name variable))).
Proof.
  intros Hd Hc. rewrite trayWalkFn_dotted by done.
  by rewrite lookup_insert_eq, Hc.
Qed.

(** The callbacks never remove a record. *)
Lemma supplyWalkFn_nonempty supplies variable :
  supplies ≠ ∅ ∨ dotted (Name variable) → supplyWalkFn supplies variable ≠ ∅.
Proof.
  intros H. destruct (decide (dotted (Name variable))) as [Hd|Hd].
  - rewrite supplyWalkFn_dotted by done. apply insert_non_empty.
  - rewrite supplyWalkFn_undotted by done. tauto.
Qed.

Lemma trayWalkFn_nonempty trays variable :
  trays ≠ ∅ ∨ dotted (Name variable) → trayWalkFn trays variable ≠ ∅.
Proof.
  intros H. destruct (decide (dotted (Name variable))) as [Hd|Hd].
  - rewrite trayWalkFn_dotted by done. apply insert_non_empty.
  - rewrite trayWalkFn_undotted by done. tauto.
Qed.

Lemma fold_trayWalkFn_nonempty entries : ∀ trays,
  trays ≠ ∅ ∨ Exists (λ e, dotted (Name e)) entries →
  fold_left trayWalkFn entries trays ≠ ∅.
Proof.
  induction entries as [|e entries IH]; intros trays H; simpl.
  - destruct H as [H|H]; [done|]. by apply Exists_nil in H.
  - apply IH. destruct H as [H|H].
    + left. apply trayWalkFn_nonempty. by left.
    + apply Exists_cons in H as [H|H]; [|by right].
      left. apply trayWalkFn_nonempty. by right.
Qed.

Lemma fold_supplyWalkFn_nonempty entries : ∀ supplies,
  supplies ≠ ∅ ∨ Exists (λ e, dotted (Name e)) entries →
  fold_left supplyWalkFn entries supplies ≠ ∅.
Proof.
  induction entries as [|e entries IH]; intros supplies H; simpl.
  - destruct H as [H|H]; [done|]. by apply Exists_nil in H.
  - apply IH. destruct H as [H|H].
    + left. apply supplyWalkFn_nonempty. by left.
    + apply Exists_cons in H as [H|H]; [|by right].
      left. apply supplyWalkFn_nonempty. by right.
Qed.

(** The last component of [p.d] is [d] when [d] has no dot. *)
Fixpoint no_sep (s : string) (sep : ascii) : bool :=
  match s with
  | EmptyString => true
  | String c s' => negb (bool_decide (c = sep)) && no_sep s' sep
  end.

Lemma Split_no_sep d sep : no_sep d sep = true → strings.Split d sep = [d].
Proof.
  induction d as [|c d IH]; simpl; [done|].
  case_bool_decide; simpl; [done|]. intros Hd. by rewrite IH.
Qed.

Lemma Split_app_length p d sep :
  (2 <= length (strings.Split (p +:+ String sep d) sep))%nat.
Proof.
  induction p as [|c p IH].
  - change ("" +:+ String sep d) with (String sep d). simpl.
    rewrite bool_decide_true by done. simpl.
    pose proof (Split_length d sep). lia.
  - change (String c p +:+ String sep d) with (String c (p +:+ String sep d)).
    simpl. case_bool_decide; simpl; [lia|].
    destruct (strings.Split (p +:+ String sep d) sep); simpl in *; lia.
Qed.

Lemma last_Split_app p d sep :
  no_sep d sep = true →
  last (strings.Split (p +:+ String sep d) sep) = Some d.
Proof.
  intros Hd. induction p as [|c p IH].
  - change ("" +:+ String sep d) with (String sep d). simpl.
    rewrite bool_decide_true by done. by rewrite Split_no_sep.
  - change (String c p +:+ String sep d) with (String c (p +:+ String sep d)).
    simpl. pose proof (Split_app_length p d sep) as Hl.
    destruct (strings.Split (p +:+ String sep d) sep) as [|h [|h' t]];
      simpl in Hl; try lia.
    case_bool_decide; exact IH.
Qed.

Lemma pduIndex_last p d :
  no_sep d "." = true → pduIndex (p +:+ String "." d) = strconv.Atoi d.
Proof. intros Hd. unfold pduIndex. by rewrite last_Split_app. Qed.

Lemma dotted_app p d : dotted (p +:+ String "." d).
Proof. apply Split_app_length. Qed.

(** All entries whose names end in the same component go to one record. *)
Lemma same_last_component_same_index p q d :
  no_sep d "." = true →
  pduIndex (p +:+ String "." d) = pduIndex (q +:+ String "." d).
Proof. intros Hd. by rewrite !pduIndex_last. Qed.

Example walk_supplies_accumulates :
  walkSupplies
    [ {| Name := ".1.3.6.1.2.1.43.11.1.1.6.1.1"; Type_ := OtherType; Value_ := VString "Black Ink" |};
      {| Name := ".1.3.6.1.2.1.43.11.1.1.6.1.2"; Type_ := OtherType; Value_ := VString "Color Ink" |};
      {| Name := ".1.3.6.1.2.1.43.11.1.1.8.1.1"; Type_ := OtherType; Value_ := VInt 100 |};
      {| Name := ".1.3.6.1.2.1.43.11.1.1.8.1.2"; Type_ := OtherType; Value_ := VInt 100 |};
      {| Name := ".1.3.6.1.2.1.43.11.1.1.9.1.1"; Type_ := OtherType; Value_ := VInt 80 |};
      {| Name := ".1.3.6.1.2.1.43.11.1.1.9.1.2"; Type_ := OtherType; Value_ := VInt 45 |} ]
  = {[ 1 := Supply.mk "Black Ink" 80 100; 2 := Supply.mk "Color Ink" 45 100 ]}.
Proof. vm_compute. reflexivity. Qed.

(** C8 on [prtInputTable]: the entry of column 21 (the media type of
    tray 1) is under none of the columns 2, 9 and 8, yet its name begins
    with the text of the prefix of column 2, and its value becomes the
    tray's name, replacing the one column 2 stored. *)
Theorem tray_column_21_sets_name :
  trayColumn ".1.3.6.1.2.1.43.8.2.1.21.1.1" = ColText ∧
  walkTrays
    [ {| Name := ".1.3.6.1.2.1.43.8.2.1.2.1.1"; Type_ := OtherType; Value_ := VString "Tray 1" |};
      {| Name := ".1.3.6.1.2.1.43.8.2.1.21.1.1"; Type_ := OtherType; Value_ := VString "stationery" |} ]
  !! 1 = Some (Tray.mk "stationery" 0 0).
Proof. split; vm_compute; reflexivity. Qed.

End WalkCallbacks.

(** ** The report of one device *)

Section Reports.

Variable ro : RangeOrder.

Lemma range_elem {A} (m : gmap Z A) i x :
  m !! i = Some x → (i, x) ∈ range ro A m.
Proof. intros H. rewrite (range_perm ro). by apply elem_of_map_to_list. Qed.

Lemma range_length {A} (m : gmap Z A) : length (range ro A m) = size m.
Proof. rewrite (range_perm ro). apply length_map_to_list. Qed.

Lemma size_pos_nonempty {A} (m : gmap Z A) : m ≠ ∅ ↔ (0 < size m)%nat.
Proof.
  split.
  - intros H. destruct (size m) eqn:E; [|lia]. by apply map_size_empty_inv in E.
  - intros H ->. rewrite map_size_empty in H. lia.
Qed.

Lemma suppliesBlock_ok supplies :
  supplies ≠ ∅ →
  suppliesBlock ro None supplies =
  "  Supplies:" :: ((λ kv, supplyLine kv.2) <$> range ro _ supplies).
Proof.
  intros H%size_pos_nonempty. unfold suppliesBlock.
  rewrite bool_decide_true by done.
  by destruct (Nat.ltb_spec 0 (size supplies)); [|lia].
Qed.

Lemma traysBlock_ok trays :
  trays ≠ ∅ →
  traysBlock ro None trays =
  "  Paper Trays:" :: ((λ kv, trayLine kv.2) <$> range ro _ trays).
Proof.
  intros H%size_pos_nonempty. unfold traysBlock.
  rewrite bool_decide_true by done.
  by destruct (Nat.ltb_spec 0 (size trays)); [|lia].
Qed.

Lemma suppliesBlock_no_data err supplies :
  err ≠ None ∨ supplies = ∅ →
  suppliesBlock ro err supplies =
  ["  Supplies: (No data available: " +:+ fmt_err err +:+ ")"].
Proof.
  intros H. unfold suppliesBlock. destruct H as [H| ->].
  - by rewrite bool_decide_false.
  - rewrite map_size_empty. by rewrite andb_false_r.
Qed.

Lemma traysBlock_no_data err trays :
  err ≠ None ∨ trays = ∅ →
  traysBlock ro err trays =
  ["  Paper Trays: (No data available: " +:+ fmt_err err +:+ ")"].
Proof.
  intros H. unfold traysBlock. destruct H as [H| ->].
  - by rewrite bool_decide_false.
  - rewrite map_size_empty. by rewrite andb_false_r.
Qed.

Lemma supplyLine_unnamed s :
  Supply.Description s = "" →
  supplyLine s =
  "    - Unknown Supply: " +:+ fmt_d (Supply.Level s) +:+ supplySuffix s.
Proof. intros H. unfold supplyLine, supplyDesc. by rewrite H. Qed.

Lemma trayLine_unnamed t :
  Tray.Name t = "" →
  trayLine t =
  "    - Unknown Tray: " +:+ fmt_d (Tray.CurrentLevel t) +:+ traySuffix t.
Proof. intros H. unfold trayLine, trayName. by rewrite H. Qed.

End Reports.

(** C10: in the Supplies and Paper Trays blocks every record of the map
    has its line, one line per record; a supply without description is
    printed as "Unknown Supply" and a tray without name as "Unknown
    Tray". *)
Theorem unnamed_entries_rendered (ro : RangeOrder)
    (supplies : gmap Z Supply.t) (trays : gmap Z Tray.t)
    (i j : Z) (s : Supply.t) (t : Tray.t) :
  supplies !! i = Some s →
  trays !! j = Some t →
  supplyLine s ∈ suppliesBlock ro None supplies ∧
  trayLine t ∈ traysBlock ro None trays ∧
  length (suppliesBlock ro None supplies) = S (size supplies) ∧
  length (traysBlock ro None trays) = S (size trays) ∧
  (Supply.Description s = "" →
   supplyLine s =
   "    - Unknown Supply: " +:+ fmt_d (Supply.Level s) +:+ supplySuffix s) ∧
  (Tray.Name t = "" →
   trayLine t =
   "    - Unknown Tray: " +:+ fmt_d (Tray.CurrentLevel t) +:+ traySuffix t).
Proof.
  intros Hs Ht.
  assert (Hsne : supplies ≠ ∅) by (intros ->; by rewrite lookup_empty in Hs).
  assert (Htne : trays ≠ ∅) by (intros ->; by rewrite lookup_empty in Ht).
  rewrite suppliesBlock_ok, traysBlock_ok by done.
  repeat split.
  - apply elem_of_cons. right.
    apply (list_elem_of_fmap_2 (λ kv : Z * Supply.t, supplyLine kv.2) _ (i, s)).
    by apply range_elem.
  - apply elem_of_cons. right.
    apply (list_elem_of_fmap_2 (λ kv : Z * Tray.t, trayLine kv.2) _ (j, t)).
    by apply range_elem.
  - simpl. by rewrite length_fmap, range_length.
  - simpl. by rewrite length_fmap, range_length.
  - apply supplyLine_unnamed.
  - apply trayLine_unnamed.
Qed.

Lemma unnamed_entries_rendered_witness :
  let s := Supply.mk "" 50 100 in
  let t := Tray.mk "" 10 0 in
  let supplies : gmap Z Supply.t := {[ 1 := s ]} in
  let trays : gmap Z Tray.t := {[ 2 := t ]} in
  supplyLine s ∈ suppliesBlock key_order None supplies ∧
  trayLine t ∈ traysBlock key_order None trays ∧
  length (suppliesBlock key_order None supplies) = S (size supplies) ∧
  length (traysBlock key_order None trays) = S (size trays) ∧
  (Supply.Description s = "" →
   supplyLine s =
   "    - Unknown Supply: " +:+ fmt_d (Supply.Level s) +:+ supplySuffix s) ∧
  (Tray.Name t = "" →
   trayLine t =
   "    - Unknown Tray: " +:+ fmt_d (Tray.CurrentLevel t) +:+ traySuffix t).
Proof.
  intros s t supplies trays.
  apply (unnamed_entries_rendered key_order supplies trays 1 2 s t); reflexivity.
Defined.

Example suppliesBlock_unnamed :
  suppliesBlock key_order None {[ 7 := Supply.mk "" 50 100 ]} =
  ["  Supplies:"; "    - Unknown Supply: 50 (50% of 100)"].
Proof. vm_compute. reflexivity. Qed.

(** C6: in the report of a device that answered the batch fetch, each
    table section depends on its own walk alone.  A walk that fails, or
    hands over no entry, gives the "No data available" note of that
    table; a walk that succeeds with entries gives a populated section,
    one line per record, whatever the other walk did.  So a failed
    supplies walk leaves the Paper Trays section populated.  And every
    report of the run is the report of its own device's answers. *)
Theorem table_failure_is_local (ro : nat → RangeOrder) (community : string)
    (answers : nat → Device) (printers : list string) (i : nat) (ip : string)
    (variables sentries tentries : list SnmpPDU) (serr terr : option string) :
  printers !! i = Some ip →
  Connect (answers i) = None →
  Get (answers i) pollOids = Ok variables →
  Walk (answers i) suppliesRoot = (sentries, serr) →
  Walk (answers i) traysRoot = (tentries, terr) →
  let supplies := suppliesBlock (ro i) serr (walkSupplies sentries) in
  let trays := traysBlock (ro i) terr (walkTrays tentries) in
  let supplyLines :=
    (λ kv : Z * Supply.t, supplyLine kv.2) <$> range (ro i) _ (walkSupplies sentries) in
  let trayLines :=
    (λ kv : Z * Tray.t, trayLine kv.2) <$> range (ro i) _ (walkTrays tentries) in
  pollReports ro community answers printers !! i =
    Some ([""; "🖨️ Printer Report for " +:+ ip +:+ ":"]
          ++ concat (variableLines <$> variables) ++ supplies ++ trays) ∧
  (serr ≠ None ∨ sentries = [] →
   supplies = ["  Supplies: (No data available: " +:+ fmt_err serr +:+ ")"]) ∧
  (terr ≠ None ∨ tentries = [] →
   trays = ["  Paper Trays: (No data available: " +:+ fmt_err terr +:+ ")"]) ∧
  (serr = None → Exists (λ e, dotted (Name e)) sentries →
   supplies = "  Supplies:" :: supplyLines ∧ (0 < length supplyLines)%nat) ∧
  (terr = None → Exists (λ e, dotted (Name e)) tentries →
   trays = "  Paper Trays:" :: trayLines ∧ (0 < length trayLines)%nat) ∧
  (∀ j printer, printers !! j = Some printer →
     pollReports ro community answers printers !! j =
     Some (pollPrinter (ro j) printer community (answers j))).
Proof.
  intros Hi Hc Hg Hs Ht supplies trays supplyLines trayLines.
  assert (Hall : ∀ j printer, printers !! j = Some printer →
     pollReports ro community answers printers !! j =
     Some (pollPrinter (ro j) printer community (answers j))).
  { intros j printer Hj. unfold pollReports.
    by rewrite list_lookup_imap, Hj. }
  split; [|split; [|split; [|split; [|split]]]]; [| | | | |done].
  - rewrite (Hall i ip Hi). unfold pollPrinter, tableLines.
    by rewrite Hc, Hg, Hs, Ht.
  - intros [H| ->]; apply suppliesBlock_no_data; [by left|by right].
  - intros [H| ->]; apply traysBlock_no_data; [by left|by right].
  - intros -> He. split.
    + apply suppliesBlock_ok, fold_supplyWalkFn_nonempty. by right.
    + unfold supplyLines. rewrite length_fmap, range_length.
      apply size_pos_nonempty, fold_supplyWalkFn_nonempty. by right.
  - intros -> He. split.
    + apply traysBlock_ok, fold_trayWalkFn_nonempty. by right.
    + unfold trayLines. rewrite length_fmap, range_length.
      apply size_pos_nonempty, fold_trayWalkFn_nonempty. by right.
Qed.

(** A printer whose supplies walk times out and whose trays walk
    succeeds. *)
Definition sample_tray_entries : list SnmpPDU :=
  [ {| Name := ".1.3.6.1.2.1.43.8.2.1.2.1.1"; Type_ := OtherType; Value_ := VString "Tray 1" |};
    {| Name := ".1.3.6.1.2.1.43.8.2.1.8.1.1"; Type_ := OtherType; Value_ := VInt 200 |};
    {| Name := ".1.3.6.1.2.1.43.8.2.1.9.1.1"; Type_ := OtherType; Value_ := VInt 150 |} ].

Definition sample_variables : list SnmpPDU :=
  [ {| Name := ".1.3.6.1.2.1.25.3.5.1.1.1"; Type_ := OtherType; Value_ := VInt 3 |} ].

Definition sample_device : Device :=
  {| Connect := None;
     Get := λ _, Ok sample_variables;
     Walk := λ root,
       if bool_decide (root = suppliesRoot) then ([], Some "request timeout")
       else (sample_tray_entries, None) |}.

Lemma table_failure_is_local_witness :
  let ro := λ _ : nat, key_order in
  let answers := λ _ : nat, sample_device in
  let trayLines :=
    (λ kv : Z * Tray.t, trayLine kv.2) <$> range key_order _ (walkTrays sample_tray_entries) in
  pollReports ro "public" answers ["192.168.1.100"] !! 0%nat =
    Some ([""; "🖨️ Printer Report for " +:+ "192.168.1.100" +:+ ":"]
          ++ concat (variableLines <$> sample_variables)
          ++ suppliesBlock key_order (Some "request timeout") (walkSupplies [])
          ++ traysBlock key_order None (walkTrays sample_tray_entries)) ∧
  suppliesBlock key_order (Some "request timeout") (walkSupplies []) =
    ["  Supplies: (No data available: " +:+ fmt_err (Some "request timeout") +:+ ")"] ∧
  traysBlock key_order None (walkTrays sample_tray_entries) =
    "  Paper Trays:" :: trayLines ∧
  (0 < length trayLines)%nat.
Proof.
  intros ro answers trayLines.
  destruct (table_failure_is_local ro "public" answers ["192.168.1.100"] 0
              "192.168.1.100" sample_variables [] sample_tray_entries
              (Some "request timeout") None
              eq_refl eq_refl eq_refl eq_refl eq_refl)
    as (Hrep & Hs & _ & _ & Ht & _).
  split; [exact Hrep|]. split; [apply Hs; by left|].
  apply Ht; [reflexivity|].
  apply Exists_cons_hd. unfold dotted. vm_compute. lia.
Defined.

Example sample_report :
  pollPrinter key_order "192.168.1.100" "public" sample_device =
  [ ""; "🖨️ Printer Report for 192.168.1.100:";
    "  Printer Status: idle";
    "  Supplies: (No data available: request timeout)";
    "  Paper Trays:";
    "    - Tray 1: 150 (75% of 200)" ].
Proof. vm_compute. reflexivity. Qed.

(** ** The worker pool of [scanNetwork] as a transition system

    The goroutine of [scanNetwork] (the producer) and the [workers]
    goroutines it starts run interleaved; a state holds the program point
    of each, the buffer of [ipChan], the mutex [mu] and the slice
    [printers]. *)

(** The producer: at the head of [for ipnet.Contains(ip)], before
    [close(ipChan)], in [wg.Wait()], or returned. *)
Inductive Producer :=
  | PLoop (ip : IP)
  | PClose
  | PWait
  | PReturned.

(** A worker: blocked in [for ip := range ipChan]; in [checkSNMP]; before
    [mu.Lock()]; holding [mu], before reading [printers] for [append],
    before storing the appended slice, before [mu.Unlock()]; or past the
    loop, its [wg.Done()] run. *)
Inductive Worker :=
  | WRecv
  | WProbe (ip : IP)
  | WLock (ip : IP)
  | WRead (ip : IP)
  | WWrite (ip : IP) (old : list string)
  | WUnlock
  | WDone.

#[global] Instance Producer_eq_dec : EqDecision Producer.
Proof. solve_decision. Defined.

#[global] Instance Worker_eq_dec : EqDecision Worker.
Proof. solve_decision. Defined.

(** What the goroutines share.  [probes] records the calls of [checkSNMP]
    that have returned, with their results; it is not program state. *)
Record Shared := mkShared {
  ipChan : list IP;
  closed : bool;
  mu : bool;
  printers : list string;
  probes : list (IP * bool);
  stdout : list string
}.

(** [sent] records the addresses sent on [ipChan] so far. *)
Record Pool := mkPool {
  producer : Producer;
  sent : list IP;
  workers : list Worker;
  shared : Shared
}.

(** The producer after [ip = incIP(ip)] and the nil check. *)
Definition next_producer (ip : IP) : Producer :=
  match incIP ip with
  | Some ip' => PLoop ip'
  | None => PClose
  end.

Section PoolSteps.

Variables (net : IPNet) (community : string) (W : nat).

(** One step of a worker.  A probe may meet any answers of its target. *)
Inductive wstep : Worker → Shared → Worker → Shared → Prop :=
  | ws_recv ip ch cl m pr pb out :
      wstep WRecv (mkShared (ip :: ch) cl m pr pb out)
            (WProbe ip) (mkShared ch cl m pr pb out)
  | ws_range_end m pr pb out :
      wstep WRecv (mkShared [] true m pr pb out)
            WDone (mkShared [] true m pr pb out)
  | ws_probe ip dev b lines ch cl m pr pb out :
      checkSNMP (IP_String ip) community dev = (b, lines) →
      wstep (WProbe ip) (mkShared ch cl m pr pb out)
            (if b then WLock ip else WRecv)
            (mkShared ch cl m pr (pb ++ [(ip, b)]) (out ++ lines))
  | ws_lock ip ch cl pr pb out :
      wstep (WLock ip) (mkShared ch cl false pr pb out)
            (WRead ip) (mkShared ch cl true pr pb out)
  | ws_read ip ch cl m pr pb out :
      wstep (WRead ip) (mkShared ch cl m pr pb out)
            (WWrite ip pr) (mkShared ch cl m pr pb out)
  | ws_write ip old ch cl m pr pb out :
      wstep (WWrite ip old) (mkShared ch cl m pr pb out)
            WUnlock (mkShared ch cl m (old ++ [IP_String ip]) pb out)
  | ws_unlock ch cl m pr pb out :
      wstep WUnlock (mkShared ch cl m pr pb out)
            WRecv (mkShared ch cl false pr pb out).

(** One step of the pool: the producer sends (the buffer has room for
    [W] addresses), leaves its loop, closes the channel or returns from
    [wg.Wait()]; or one of the workers steps. *)
Inductive step : Pool → Pool → Prop :=
  | step_send ip snt ws ch cl m pr pb out :
      Contains net ip = true →
      (length ch < W)%nat →
      step (mkPool (PLoop ip) snt ws (mkShared ch cl m pr pb out))
           (mkPool (next_producer ip) (snt ++ [ip]) ws
                   (mkShared (ch ++ [ip]) cl m pr pb out))
  | step_exhausted ip snt ws σ :
      Contains net ip = false →
      step (mkPool (PLoop ip) snt ws σ) (mkPool PClose snt ws σ)
  | step_close snt ws ch cl m pr pb out :
      step (mkPool PClose snt ws (mkShared ch cl m pr pb out))
           (mkPool PWait snt ws (mkShared ch true m pr pb out))
  | step_worker p snt ws1 w ws2 σ w' σ' :
      wstep w σ w' σ' →
      step (mkPool p snt (ws1 ++ w :: ws2) σ)
           (mkPool p snt (ws1 ++ w' :: ws2) σ')
  | step_join snt ws σ :
      Forall (eq WDone) ws →
      step (mkPool PWait snt ws σ) (mkPool PReturned snt ws σ).

(** [scanNetwork] after [net.ParseCIDR] and the [go] statements. *)
Definition init : Pool :=
  mkPool (PLoop (IPNet_IP net)) [] (replicate W WRecv)
         (mkShared [] false false [] [] []).

Definition reachable (s : Pool) : Prop := rtc step init s.

Definition returned (s : Pool) : Prop := producer s = PReturned.

(** The addresses being probed, the names waiting to be appended, and
    the workers holding the mutex. *)
Definition inflight1 (w : Worker) : list IP :=
  match w with WProbe ip => [ip] | _ => [] end.

Definition pending1 (w : Worker) : list string :=
  match w with
  | WLock ip | WRead ip | WWrite ip _ => [IP_String ip]
  | _ => []
  end.

Definition holder1 (w : Worker) : list unit :=
  match w with
  | WRead _ | WWrite _ _ | WUnlock => [()]
  | _ => []
  end.

Definition inflight (ws : list Worker) : list IP := ws ≫= inflight1.
Definition pending (ws : list Worker) : list string := ws ≫= pending1.
Definition holders (ws : list Worker) : nat := length (ws ≫= holder1).

(** The addresses whose probe was positive, as [printers] names them. *)
Definition positives (pb : list (IP * bool)) : list string :=
  pb ≫= λ x : IP * bool, if x.2 then [IP_String x.1] else [].

(** The producer follows [enum_loop]: at the head of the loop with [ip],
    the loop started on the network address has sent [snt] and goes on as
    the loop started on [ip]; past the loop, it has ended with [snt]. *)
Definition enum_inv (p : Producer) (snt : list IP) : Prop :=
  match p with
  | PLoop ip =>
      ∀ fuel, enum_loop (length snt + fuel) net (IPNet_IP net) =
              (snt ++ (enum_loop fuel net ip).1, (enum_loop fuel net ip).2)
  | _ =>
      ∃ e, e ≠ OutOfFuel ∧
           ∀ fuel, (length snt < fuel)%nat →
                   enum_loop fuel net (IPNet_IP net) = (snt, e)
  end.

Record Inv (s : Pool) : Prop := {
  inv_sent :
    sent s ≡ₚ ipChan (shared s) ++ inflight (workers s) ++ (probes (shared s)).*1;
  inv_printers :
    positives (probes (shared s)) ≡ₚ printers (shared s) ++ pending (workers s);
  inv_mu : holders (workers s) = if mu (shared s) then 1%nat else 0%nat;
  inv_old : ∀ ip old, WWrite ip old ∈ workers s → old = printers (shared s);
  inv_closed :
    closed (shared s) =
    match producer s with PWait | PReturned => true | _ => false end;
  inv_done : WDone ∈ workers s → closed (shared s) = true ∧ ipChan (shared s) = [];
  inv_returned : producer s = PReturned → Forall (eq WDone) (workers s);
  inv_workers : length (workers s) = W;
  inv_chan : (length (ipChan (shared s)) <= W)%nat;
  inv_enum : enum_inv (producer s) (sent s)
}.

End PoolSteps.

(** ** Invariants of the pool *)

Section PoolInvariants.

Variables (net : IPNet) (community : string) (W : nat).

Local Abbreviation step := (step net community W).
Local Abbreviation wstep := (wstep community).
Local Abbreviation init := (init net W).
Local Abbreviation reachable := (reachable net community W).
Local Abbreviation Inv := (Inv net W).
Local Abbreviation enum_inv := (enum_inv net).

Lemma inflight_split ws1 w ws2 :
  inflight (ws1 ++ w :: ws2) = inflight ws1 ++ inflight1 w ++ inflight ws2.
Proof. unfold inflight. by rewrite bind_app, bind_cons. Qed.

Lemma pending_split ws1 w ws2 :
  pending (ws1 ++ w :: ws2) = pending ws1 ++ pending1 w ++ pending ws2.
Proof. unfold pending. by rewrite bind_app, bind_cons. Qed.

Lemma holders_split ws1 w ws2 :
  holders (ws1 ++ w :: ws2) =
  (holders ws1 + length (holder1 w) + holders ws2)%nat.
Proof. unfold holders. rewrite bind_app, bind_cons, !length_app. lia. Qed.

Lemma positives_snoc pb ip b :
  positives (pb ++ [(ip, b)]) = positives pb ++ (if b then [IP_String ip] else []).
Proof.
  unfold positives. rewrite bind_app. f_equal. simpl. by rewrite app_nil_r.
Qed.

Lemma replicate_bind_nil {A B} (f : A → list B) n x :
  f x = [] → replicate n x ≫= f = [].
Proof.
  intros H. induction n as [|n IH]; [done|].
  change (replicate (S n) x) with (x :: replicate n x).
  by rewrite bind_cons, H, IH.
Qed.

Lemma enum_loop_pair fuel ip :
  enum_loop fuel net ip = ((enum_loop fuel net ip).1, (enum_loop fuel net ip).2).
Proof. by destruct (enum_loop fuel net ip). Qed.

Lemma Inv_init : Inv init.
Proof.
  split; simpl.
  - unfold inflight. by rewrite replicate_bind_nil.
  - unfold pending. by rewrite replicate_bind_nil.
  - unfold holders. by rewrite replicate_bind_nil.
  - intros ip old [? _]%elem_of_replicate. done.
  - done.
  - intros [? _]%elem_of_replicate. done.
  - done.
  - apply length_replicate.
  - lia.
  - intros fuel. simpl. apply enum_loop_pair.
Qed.

(** The producer's steps keep [enum_inv]. *)
Lemma enum_inv_send ip snt :
  enum_inv (PLoop ip) snt → Contains net ip = true →
  enum_inv (next_producer ip) (snt ++ [ip]).
Proof.
  intros H HC. unfold next_producer.
  destruct (incIP ip) as [ip'|] eqn:Hinc; simpl in *.
  - intros fuel. rewrite length_app. simpl.
    replace (length snt + 1 + fuel)%nat with (length snt + S fuel)%nat by lia.
    rewrite H, enum_loop_S, HC, Hinc.
    destruct (enum_loop fuel net ip'). simpl. by rewrite <- app_assoc.
  - exists NilBreak. split; [done|]. intros fuel Hf.
    rewrite length_app in Hf. simpl in Hf.
    replace fuel with (length snt + S (fuel - length snt - 1))%nat by lia.
    by rewrite H, enum_loop_S, HC, Hinc.
Qed.

Lemma enum_inv_exhausted ip snt :
  enum_inv (PLoop ip) snt → Contains net ip = false → enum_inv PClose snt.
Proof.
  intros H HC. exists Exhausted. split; [done|]. intros fuel Hf.
  replace fuel with (length snt + S (fuel - length snt - 1))%nat by lia.
  rewrite H, enum_loop_S, HC. simpl. by rewrite app_nil_r.
Qed.

Lemma holders_none ws ip old : holders ws = 0%nat → WWrite ip old ∉ ws.
Proof.
  intros H Hin. apply list_elem_of_split in Hin as (ws1 & ws2 & ->).
  rewrite holders_split in H. simpl in H. lia.
Qed.

Lemma Forall_done_middle ws1 w ws2 :
  Forall (eq WDone) (ws1 ++ w :: ws2) → w = WDone.
Proof. intros H. apply Forall_app in H as [_ H]. by apply Forall_cons in H as [-> _]. Qed.

Lemma elem_of_middle_change {A} (x : A) ws1 w w' ws2 :
  x ∈ ws1 ++ w' :: ws2 → x ≠ w' → x ∈ ws1 ++ w :: ws2.
Proof. rewrite !elem_of_app, !elem_of_cons. tauto. Qed.

Lemma elem_of_middle_inv {A} (x : A) ws1 w ws2 :
  x ∈ ws1 ++ w :: ws2 → x = w ∨ x ∈ ws1 ∨ x ∈ ws2.
Proof. rewrite !elem_of_app, !elem_of_cons. tauto. Qed.

Lemma wstep_inv p snt ws1 w ws2 σ w' σ' :
  Inv (mkPool p snt (ws1 ++ w :: ws2) σ) →
  wstep w σ w' σ' →
  Inv (mkPool p snt (ws1 ++ w' :: ws2) σ').
Proof.
  intros [Hs Hp Hm Ho Hc Hd Hr Hw Hch He] Hst; simpl in *.
  rewrite inflight_split in Hs. rewrite pending_split in Hp.
  rewrite holders_split in Hm.
  destruct Hst; try destruct b; split; simpl in *;
    rewrite ?inflight_split, ?pending_split, ?holders_split, ?positives_snoc,
            ?fmap_app; simpl in *.
  all: try done.
  all: try (rewrite length_app in *; simpl in *; lia).
  all: try (intros Hret; specialize (Hr Hret);
            apply Forall_done_middle in Hr; discriminate).
  all: try (rewrite Hs; solve_Permutation).
  all: try (rewrite Hp; solve_Permutation).
  all: try (intros Hin; eapply Hd, elem_of_middle_change; [exact Hin | discriminate]).
  all: try (intros ip0 old0 Hin; eapply (Ho ip0), elem_of_middle_change;
            [exact Hin | discriminate]).
  - (* receive: no worker is past its loop while the buffer holds an address *)
    intros Hin. exfalso.
    destruct Hd as [_ Hd]; [|discriminate].
    eapply elem_of_middle_change; [exact Hin | discriminate].
  - (* read: the copy is the current slice *)
    intros ip0 old0 [Hin|Hin]%elem_of_middle_inv; [congruence|].
    apply (Ho ip0). rewrite elem_of_app, elem_of_cons. tauto.
  - (* write: the copy is still the current slice *)
    assert (old = pr) as ->.
    { apply (Ho ip). rewrite elem_of_app, elem_of_cons. tauto. }
    rewrite Hp. solve_Permutation.
  - (* write: no other worker holds the mutex *)
    assert (holders ws1 = 0 ∧ holders ws2 = 0)%nat as [H1 H2]
      by (destruct m; lia).
    intros ip0 old0 [Hin|[Hin|Hin]]%elem_of_middle_inv; [done| |].
    + by apply holders_none in Hin.
    + by apply holders_none in Hin.
  - destruct m; lia.
Qed.

Lemma step_inv s s' : Inv s → step s s' → Inv s'.
Proof.
  intros HI Hst. destruct Hst.
  - destruct HI as [Hs Hp Hm Ho Hc Hd Hr Hw Hch He]; simpl in *.
    assert (Hnp : match next_producer ip with PWait | PReturned => true | _ => false end = false)
      by (unfold next_producer; by destruct (incIP ip)).
    split; simpl; try done.
    + rewrite Hs. solve_Permutation.
    + by rewrite Hnp.
    + intros Hin. destruct (Hd Hin) as [? _]. congruence.
    + intros Hret. unfold next_producer in Hret. by destruct (incIP ip).
    + rewrite length_app. simpl. lia.
    + by apply enum_inv_send.
  - destruct HI as [Hs Hp Hm Ho Hc Hd Hr Hw Hch He]; simpl in *.
    split; simpl; try done. by eapply enum_inv_exhausted.
  - destruct HI as [Hs Hp Hm Ho Hc Hd Hr Hw Hch He]; simpl in *.
    split; simpl; try done.
    intros Hin. destruct (Hd Hin) as [? _]. congruence.
  - by eapply wstep_inv.
  - destruct HI as [Hs Hp Hm Ho Hc Hd Hr Hw Hch He]; simpl in *.
    split; simpl; try done.
Qed.

Lemma reachable_inv s : reachable s → Inv s.
Proof.
  revert s. apply rtc_ind_r; [apply Inv_init|].
  intros s s' _ Hst HI. by eapply step_inv.
Qed.


(** *** What [scanNetwork] returns *)

Lemma all_done_inflight ws : Forall (eq WDone) ws → inflight ws = [] ∧ pending ws = [].
Proof.
  induction 1 as [|w ws <- _ [IH1 IH2]]; [done|].
  unfold inflight, pending in *. by rewrite !bind_cons, IH1, IH2.
Qed.

(** When [scanNetwork] returns, every address sent has been probed once:
    the probes are a permutation of the addresses sent, and [printers]
    is a permutation of the positive ones. *)
Lemma returned_exact s :
  (1 <= W)%nat → reachable s → returned s →
  (probes (shared s)).*1 ≡ₚ sent s ∧
  printers (shared s) ≡ₚ positives (probes (shared s)) ∧
  ∃ e, e ≠ OutOfFuel ∧
       ∀ fuel, (length (sent s) < fuel)%nat →
               enum_loop fuel net (IPNet_IP net) = (sent s, e).
Proof.
  intros HW [Hs Hp Hm Ho Hc Hd Hr Hw Hch He]%reachable_inv Hret.
  unfold returned in Hret. specialize (Hr Hret).
  destruct (all_done_inflight _ Hr) as [Hi Hpe].
  assert (Hin : WDone ∈ workers s).
  { destruct (workers s) as [|w ws]; [simpl in Hw; lia|].
    apply Forall_cons in Hr as [<- _]. apply elem_of_cons. by left. }
  destruct (Hd Hin) as [_ Hch0].
  rewrite Hch0, Hi in Hs. rewrite Hpe, app_nil_r in Hp. simpl in Hs.
  rewrite Hret in He. by repeat split.
Qed.

(** At every moment, each address sent is in the buffer, being probed,
    or probed: none is lost and none is handed to two workers. *)
Lemma sent_accounted s :
  reachable s →
  sent s ≡ₚ ipChan (shared s) ++ inflight (workers s) ++ (probes (shared s)).*1.
Proof. by intros []%reachable_inv. Qed.

End PoolInvariants.

(** ** Termination and absence of deadlock *)

Lemma enum_loop_mono n : ∀ fuel ip l e fuel',
  enum_loop fuel n ip = (l, e) → e ≠ OutOfFuel → (fuel <= fuel')%nat →
  enum_loop fuel' n ip = (l, e).
Proof.
  induction fuel as [|fuel IH]; intros ip l e fuel' H He Hf.
  - simpl in H. congruence.
  - destruct fuel' as [|fuel']; [lia|]. rewrite enum_loop_S in *.
    destruct (Contains n ip); [|done].
    destruct (incIP ip) as [ip'|]; [|done].
    destruct (enum_loop fuel n ip') as [l' e'] eqn:E.
    simplify_eq. by rewrite (IH ip' l' e fuel' E He) by lia.
Qed.

Section PoolTermination.

Variables (net : IPNet) (community : string) (W : nat).

Local Abbreviation step := (step net community W).
Local Abbreviation wstep := (wstep community).
Local Abbreviation init := (init net W).
Local Abbreviation reachable := (reachable net community W).
Local Abbreviation Inv := (Inv net W).

(** The enumeration loop ends, having sent [block]. *)
Variables (block : list IP) (exit : LoopExit) (fuel0 : nat).
Hypothesis Hexit : exit ≠ OutOfFuel.
Hypothesis Hblock : enum_loop fuel0 net (IPNet_IP net) = (block, exit).

Lemma block_any_fuel fuel :
  (fuel0 <= fuel)%nat → enum_loop fuel net (IPNet_IP net) = (block, exit).
Proof. intros H. by apply (enum_loop_mono net fuel0). Qed.

Lemma past_loop_block snt :
  (∃ e, e ≠ OutOfFuel ∧
        ∀ fuel, (length snt < fuel)%nat →
                enum_loop fuel net (IPNet_IP net) = (snt, e)) →
  snt = block.
Proof.
  intros (e & _ & H). specialize (H (length snt + S fuel0)%nat ltac:(lia)).
  rewrite block_any_fuel in H by lia. by simplify_eq.
Qed.

Lemma sent_le_block p snt : enum_inv net p snt → (length snt <= length block)%nat.
Proof.
  intros H. destruct p; simpl in H;
    try (by rewrite (past_loop_block snt H)).
  specialize (H fuel0). rewrite block_any_fuel in H by lia.
  injection H as H1 H2. rewrite H1, length_app. lia.
Qed.

Lemma sent_lt_block ip snt :
  enum_inv net (PLoop ip) snt → Contains net ip = true →
  (length snt < length block)%nat.
Proof.
  intros H HC. pose proof (enum_inv_send net ip snt H HC) as H'.
  apply sent_le_block in H'. rewrite length_app in H'. simpl in H'. lia.
Qed.

Lemma returned_block s :
  (1 <= W)%nat → reachable s → returned s → sent s = block.
Proof.
  intros HW Hr Hret.
  destruct (returned_exact net community W s HW Hr Hret) as (_ & _ & H).
  by apply past_loop_block.
Qed.

(** The measure that every step decreases. *)
Definition wweight (w : Worker) : nat :=
  match w with
  | WDone => 0 | WRecv => 1 | WUnlock => 2 | WWrite _ _ => 3
  | WRead _ => 4 | WLock _ => 5 | WProbe _ => 6
  end.

Definition pweight (p : Producer) : nat :=
  match p with PLoop _ => 3 | PClose => 2 | PWait => 1 | PReturned => 0 end.

Definition measure (s : Pool) : nat :=
  12 * (length block - length (sent s)) + pweight (producer s)
  + 11 * length (ipChan (shared s)) + sum_list_with wweight (workers s).

Lemma sum_weights_split ws1 w ws2 :
  sum_list_with wweight (ws1 ++ w :: ws2) =
  (sum_list_with wweight ws1 + wweight w + sum_list_with wweight ws2)%nat.
Proof. rewrite sum_list_with_app. simpl. lia. Qed.

Lemma step_measure s s' : Inv s → step s s' → (measure s' < measure s)%nat.
Proof.
  intros HI Hst. destruct Hst; unfold measure; simpl.
  - pose proof (sent_lt_block ip snt (inv_enum _ _ _ HI)) as Hlt.
    simpl in Hlt. specialize (Hlt H).
    assert (pweight (next_producer ip) <= 3)%nat
      by (unfold next_producer; destruct (incIP ip); simpl; lia).
    rewrite !length_app. simpl. lia.
  - lia.
  - lia.
  - rewrite !sum_weights_split.
    destruct H; try destruct b; simpl; lia.
  - lia.
Qed.

Lemma measure_init : measure init = (12 * length block + 3 + W)%nat.
Proof.
  unfold measure. simpl.
  assert (sum_list_with wweight (replicate W WRecv) = W) as ->.
  { induction W as [|n IH]; simpl; [done|]. by rewrite IH. }
  lia.
Qed.

(** Every run is finite: no run has more than [12 * |block| + 3 + W]
    steps. *)
Lemma run_bounded n s :
  nsteps step n init s → (n + measure s <= 12 * length block + 3 + W)%nat.
Proof.
  revert s. induction n as [|n IH]; intros s H.
  - inversion H; subst. rewrite measure_init. lia.
  - apply nsteps_inv_r in H as (s0 & H0 & Hst).
    specialize (IH s0 H0).
    assert (Inv s0) by (eapply reachable_inv, rtc_nsteps_2; exact H0).
    pose proof (step_measure s0 s ltac:(done) Hst). lia.
Qed.

(** A worker holding the mutex exists whenever the mutex is locked. *)
Lemma holders_pos ws :
  (0 < holders ws)%nat →
  ∃ ws1 w ws2, ws = ws1 ++ w :: ws2 ∧ holder1 w = [()].
Proof.
  induction ws as [|w ws IH]; unfold holders; [simpl; lia|].
  rewrite bind_cons, length_app. intros H.
  destruct (holder1 w) as [|[] ?] eqn:E.
  - destruct IH as (ws1 & w' & ws2 & -> & Hw); [simpl in H; unfold holders; lia|].
    by exists (w :: ws1), w', ws2.
  - exists [], w, ws. split; [done|]. by destruct w.
Qed.

(** Some device, to show that a probe can always return. *)
Definition silent_device : Device :=
  {| Connect := Some "i/o timeout"; Get := λ _, Err "i/o timeout";
     Walk := λ _, ([], Some "i/o timeout") |}.

Lemma holder_steps p snt ws1 w ws2 σ :
  holder1 w = [()] → ∃ s', step (mkPool p snt (ws1 ++ w :: ws2) σ) s'.
Proof.
  intros Hw. destruct σ as [ch cl m pr pb out].
  destruct w; try discriminate; eexists; apply step_worker; constructor.
Qed.

(** A worker that is not past its loop can step, or another one can,
    provided the buffer holds an address or the channel is closed. *)
Lemma worker_progress p snt ws1 w ws2 σ :
  Inv (mkPool p snt (ws1 ++ w :: ws2) σ) →
  w ≠ WDone →
  ipChan σ ≠ [] ∨ closed σ = true →
  ∃ s', step (mkPool p snt (ws1 ++ w :: ws2) σ) s'.
Proof.
  intros HI Hw Hch. destruct σ as [ch cl m pr pb out]. simpl in *.
  destruct w as [|ip|ip|ip|ip old| |]; try done.
  - destruct ch as [|ip ch].
    + destruct Hch as [?| ->]; [done|].
      eexists. apply step_worker. constructor.
    + eexists. apply step_worker. constructor.
  - destruct (checkSNMP (IP_String ip) community silent_device) as [b lines] eqn:E.
    eexists. apply step_worker. by econstructor.
  - destruct m.
    + pose proof (inv_mu _ _ _ HI) as Hm. simpl in Hm.
      destruct (holders_pos (ws1 ++ WLock ip :: ws2)) as (ws1' & w' & ws2' & -> & Hh);
        [lia|]. by apply holder_steps.
    + eexists. apply step_worker. constructor.
  - eexists. apply step_worker. constructor.
  - eexists. apply step_worker. constructor.
  - eexists. apply step_worker. constructor.
Qed.

(** No deadlock: until [scanNetwork] has returned, some goroutine can
    step. *)
Lemma progress s :
  (1 <= W)%nat → Inv s → ¬ returned s → ∃ s', step s s'.
Proof.
  intros HW HI Hret. destruct s as [p snt ws σ].
  pose proof (inv_workers _ _ _ HI) as Hlen. simpl in Hlen.
  pose proof (inv_closed _ _ _ HI) as Hcl. simpl in Hcl.
  destruct p as [ip| | |]; [| |destruct (decide (Forall (eq WDone) ws)) as [Hall|Hall]|].
  - destruct (Contains net ip) eqn:HC; [|eexists; by apply step_exhausted].
    destruct σ as [ch cl m pr pb out]. simpl in *.
    destruct (decide (length ch < W)%nat) as [Hlt|Hge];
      [eexists; by apply step_send|].
    destruct ws as [|w ws]; [simpl in Hlen; lia|].
    apply (worker_progress _ _ [] w ws); [done| |].
    + intros ->. destruct (inv_done _ _ _ HI) as [? _]; simpl in *;
        [apply elem_of_cons; by left|congruence].
    + left. simpl. destruct ch; [simpl in Hge; lia|done].
  - destruct σ. eexists. apply step_close.
  - eexists. by apply step_join.
  - apply not_Forall_Exists in Hall; [|intros w; apply _].
    apply Exists_exists in Hall as (w & Hin & Hw).
    apply list_elem_of_split in Hin as (ws1 & ws2 & ->).
    apply worker_progress; [done|congruence|by right].
  - by destruct Hret.
Qed.

(** Every run ends with [scanNetwork] returned. *)
Lemma reaches_return s :
  (1 <= W)%nat → reachable s → ∃ s', rtc step s s' ∧ returned s'.
Proof.
  intros HW. remember (measure s) as k eqn:Hk.
  revert s Hk. induction (lt_wf k) as [k _ IH]. intros s -> Hr.
  destruct (decide (producer s = PReturned)) as [Hret|Hret];
    [by exists s|].
  destruct (progress s HW (reachable_inv _ _ _ _ Hr) Hret) as [s1 Hst].
  destruct (IH (measure s1)
              (step_measure s s1 (reachable_inv _ _ _ _ Hr) Hst) s1 eq_refl)
    as (s' & Hrun & Hs'); [by eapply rtc_r|].
  exists s'. split; [|done]. by eapply rtc_l.
Qed.

End PoolTermination.

(** ** Discovery on IPv4 blocks *)

Section Discovery.

Variables (community : string) (W : nat).

(** For a prefix length of at least one and at least one worker:
    discovery cannot deadlock, every run is finite, and when
    [scanNetwork] returns every address of the block has been probed
    exactly once and [printers] holds exactly the positive ones. *)
Theorem discovery_block (a : IP) (p : Z) :
  is_ip4 a → 1 <= p <= 32 → (1 <= W)%nat →
  let net := ipv4net a p in
  let block := ipOfZ <$> seqZ (block_base a p) (block_size p) in
  (∀ s, reachable net community W s → ¬ returned s →
        ∃ s', step net community W s s') ∧
  (∀ n s, nsteps (step net community W) n (init net W) s →
          (n <= 12 * length block + 3 + W)%nat) ∧
  (∀ s, reachable net community W s → returned s →
        (probes (shared s)).*1 ≡ₚ block ∧
        printers (shared s) ≡ₚ positives (probes (shared s))).
Proof.
  intros Ha Hp HW net block.
  assert (Hb : enum_loop (S (Z.to_nat (block_size p))) net (IPNet_IP net)
               = (block, Exhausted)) by (apply enum_loop_block; done || lia).
  split; [|split].
  - intros s Hr Hret. apply progress; [done| |done]. by eapply reachable_inv.
  - intros n s Hn.
    pose proof (run_bounded net community W block Exhausted _ ltac:(done) Hb n s Hn).
    lia.
  - intros s Hr Hret.
    pose proof (returned_block net community W block Exhausted _ ltac:(done) Hb s HW Hr Hret) as Hs.
    destruct (returned_exact net community W s HW Hr Hret) as (H1 & H2 & _).
    by rewrite Hs in H1.
Qed.

(** On [0.0.0.0/0] the producer stays in its loop for ever. *)
Lemma slash0_in_loop s :
  reachable (ipv4net zero_ip 0) community W s →
  ∃ v, producer s = PLoop (ipOfZ v).
Proof.
  revert s. apply rtc_ind_r; [by exists 0|].
  intros s s' _ Hst [v Hv]. destruct Hst; simpl in *; simplify_eq.
  - exists (v + 1). unfold next_producer. by rewrite incIP_ipOfZ.
  - rewrite Contains_slash0 in H by apply is_ip4_zero. done.
  - by exists v.
Qed.

(** A run on [0.0.0.0/0] that probes the first [n] addresses of the
    enumeration, each found not to be a printer. *)
Definition slash0_state (n : nat) : Pool :=
  mkPool (PLoop (ipOfZ (Z.of_nat n))) (ipOfZ <$> seqZ 0 (Z.of_nat n))
         (replicate W WRecv)
         (mkShared [] false false []
                   ((λ v, (ipOfZ v, false)) <$> seqZ 0 (Z.of_nat n)) []).

Lemma slash0_round n :
  (1 <= W)%nat →
  rtc (step (ipv4net zero_ip 0) community W) (slash0_state n) (slash0_state (S n)).
Proof.
  intros HW. unfold slash0_state.
  destruct W as [|W']; [lia|].
  change (replicate (S W') WRecv) with ([] ++ WRecv :: replicate W' WRecv).
  eapply rtc_l.
  { apply step_send; [apply Contains_slash0, is_ip4_zero | simpl; lia]. }
  eapply rtc_l.
  { apply step_worker. simpl. apply ws_recv. }
  eapply rtc_l.
  { apply step_worker. apply (ws_probe community _ silent_device false []). done. }
  unfold next_producer. rewrite incIP_ipOfZ. simpl.
  rewrite !seqZ_S, !fmap_app, ?app_nil_r. simpl.
  rewrite Z.add_0_l.
  replace (Z.of_nat n + 1) with (Z.of_nat (S n)) by lia.
  apply rtc_refl.
Qed.

Lemma slash0_state_reachable n :
  (1 <= W)%nat → reachable (ipv4net zero_ip 0) community W (slash0_state n).
Proof.
  intros HW. induction n as [|n IH]; [apply rtc_refl|].
  unfold reachable in *. etrans; [exact IH|]. by apply slash0_round.
Qed.

End Discovery.

(** C2 at [0.0.0.0/0]: whatever the number of workers, [scanNetwork]
    never returns; and with at least one worker the run goes on probing
    the enumeration for any number [n] of addresses, in which 0.0.0.0
    comes again after 255.255.255.255. *)
Theorem scan_slash0_never_returns (community : string) (W : nat) :
  (∀ s, reachable (ipv4net zero_ip 0) community W s → ¬ returned s) ∧
  (∀ n : nat, (1 <= W)%nat →
     ∃ s, reachable (ipv4net zero_ip 0) community W s ∧
          (probes (shared s)).*1 = ipOfZ <$> seqZ 0 (Z.of_nat n)) ∧
  ipOfZ (2 ^ 32) = ipOfZ 0.
Proof.
  split; [|split; [|reflexivity]].
  - intros s [v Hv]%slash0_in_loop Hret. unfold returned in Hret. congruence.
  - intros n HW. exists (slash0_state W n).
    split; [by apply slash0_state_reachable|].
    simpl. rewrite <- list_fmap_compose. by apply list_fmap_ext.
Qed.

(** ** [main]: the fatal path and the non-fatal paths *)

(** The process: at the call of [scanNetwork] (the banner printed);
    inside [scanNetwork], the pool running; in the loop over the
    discovered printers, with the reports printed so far and the printers
    still to poll; or exited.  An exited process keeps what it did: the
    final pool, if discovery ran, and the reports. *)
Inductive Main :=
  | MStart
  | MScan (net : IPNet) (s : Pool)
  | MPoll (s : Pool) (reports : list (list string)) (todo : list string)
  | MExit (status : Z) (s : option Pool) (reports : list (list string)).

Section MainSteps.

(** [net.ParseCIDR]: the network of the block, or [None] for an error. *)
Variable ParseCIDR : string → option IPNet.
Variables (cidr community : string) (W : nat).

(** [log.Fatalf] ends the process with status 1; a return from [main]
    ends it with status 0.  Each [pollPrinter] meets any answers of its
    target and ranges over its maps in any order. *)
Inductive mstep : Main → Main → Prop :=
  | m_fatal :
      ParseCIDR cidr = None → mstep MStart (MExit 1 None [])
  | m_parsed net :
      ParseCIDR cidr = Some net → mstep MStart (MScan net (init net W))
  | m_scan net s s' :
      step net community W s s' → mstep (MScan net s) (MScan net s')
  | m_scanned net s :
      returned s → mstep (MScan net s) (MPoll s [] (printers (shared s)))
  | m_poll s reports printer todo ro dev :
      mstep (MPoll s reports (printer :: todo))
            (MPoll s (reports ++ [pollPrinter ro printer community dev]) todo)
  | m_exit s reports :
      mstep (MPoll s reports []) (MExit 0 (Some s) reports).

(** The probes made so far and the number of printers polled so far:
    the network activity of the process. *)
Definition probed (m : Main) : list (IP * bool) :=
  match m with
  | MScan _ s | MPoll s _ _ | MExit _ (Some s) _ => probes (shared s)
  | _ => []
  end.

Definition polled (m : Main) : nat :=
  match m with
  | MPoll _ reports _ | MExit _ _ reports => length reports
  | _ => 0
  end.

Definition banner : string :=
  "🔎 Scanning network " +:+ cidr +:+ " with " +:+ fmt_d (Z.of_nat W)
  +:+ " workers for SNMP-enabled printers...".

Definition summary (found : list string) : list string :=
  match found with
  | [] => ["❌ No SNMP printers found!"]
  | _ => ["✅ Found " +:+ fmt_d (Z.of_nat (length found)) +:+ " SNMP printers:"]
  end.

(** Standard output so far. *)
Definition output (m : Main) : list string :=
  match m with
  | MStart | MExit _ None _ => [banner]
  | MScan _ s => banner :: stdout (shared s)
  | MPoll s reports _ | MExit _ (Some s) reports =>
      banner :: stdout (shared s) ++ summary (printers (shared s)) ++ concat reports
  end.

(** Each report is that of the printer at its place in [printers]. *)
Definition reports_of (found : list string) (reports : list (list string)) : Prop :=
  Forall2 (λ printer r, ∃ ro dev, r = pollPrinter ro printer community dev)
          found reports.

End MainSteps.

(** A failure in [pollPrinter] is printed and ends that report only. *)
Lemma pollPrinter_connect_failure ro ip community dev err :
  Connect dev = Some err →
  pollPrinter ro ip community dev =
  ["❌ Failed to connect to " +:+ ip +:+ ": " +:+ err].
Proof. intros H. unfold pollPrinter. by rewrite H. Qed.

Lemma pollPrinter_get_failure ro ip community dev err :
  Connect dev = None → Get dev pollOids = Err err →
  pollPrinter ro ip community dev =
  ["❌ SNMP Get error for " +:+ ip +:+ ": " +:+ err].
Proof. intros H1 H2. unfold pollPrinter. by rewrite H1, H2. Qed.

Lemma pollPrinter_supplies_walk_failure ro ip community dev variables entries err :
  Connect dev = None → Get dev pollOids = Ok variables →
  Walk dev suppliesRoot = (entries, Some err) →
  "  Supplies: (No data available: " +:+ err +:+ ")"
    ∈ pollPrinter ro ip community dev.
Proof.
  intros H1 H2 H3. unfold pollPrinter, tableLines. rewrite H1, H2, H3.
  destruct (Walk dev traysRoot) as [tentries terr].
  rewrite suppliesBlock_no_data by (by left).
  rewrite !elem_of_app, !elem_of_cons. simpl. tauto.
Qed.

Lemma pollPrinter_trays_walk_failure ro ip community dev variables entries err :
  Connect dev = None → Get dev pollOids = Ok variables →
  Walk dev traysRoot = (entries, Some err) →
  "  Paper Trays: (No data available: " +:+ err +:+ ")"
    ∈ pollPrinter ro ip community dev.
Proof.
  intros H1 H2 H3. unfold pollPrinter, tableLines. rewrite H1, H2, H3.
  destruct (Walk dev suppliesRoot) as [sentries serr].
  rewrite traysBlock_no_data by (by left).
  rewrite !elem_of_app, !elem_of_cons. simpl. tauto.
Qed.

(** A target that cannot be reached is no printer; nothing is printed. *)
Lemma checkSNMP_connect_failure ip community dev err :
  Connect dev = Some err → checkSNMP ip community dev = (false, []).
Proof. intros H. unfold checkSNMP. by rewrite H. Qed.

Section MainRuns.

Variable ParseCIDR : string → option IPNet.
Variables (cidr community : string) (W : nat).

Local Abbreviation mstep := (mstep ParseCIDR cidr community W).

(** With a malformed CIDR the process can only exit with status 1,
    without discovery and without reports. *)
Lemma fatal_only m :
  ParseCIDR cidr = None → rtc mstep MStart m →
  m = MStart ∨ m = MExit 1 None [].
Proof.
  intros Hp. revert m. apply rtc_ind_r; [by left|].
  intros m m' _ Hst [-> | ->]; inversion Hst; simplify_eq. by right.
Qed.

Variable net : IPNet.
Hypothesis Hparse : ParseCIDR cidr = Some net.
Hypothesis HW : (1 <= W)%nat.

Variables (block : list IP) (exit : LoopExit) (fuel0 : nat).
Hypothesis Hexit : exit ≠ OutOfFuel.
Hypothesis Hblock : enum_loop fuel0 net (IPNet_IP net) = (block, exit).

Definition MInv (m : Main) : Prop :=
  match m with
  | MStart => True
  | MScan net' s => net' = net ∧ reachable net community W s
  | MPoll s reports todo =>
      reachable net community W s ∧ returned s ∧
      reports_of community (take (length reports) (printers (shared s))) reports ∧
      todo = drop (length reports) (printers (shared s))
  | MExit status so reports =>
      status = 0 ∧
      ∃ s, so = Some s ∧ reachable net community W s ∧ returned s ∧
           reports_of community (printers (shared s)) reports
  end.

Lemma mstep_inv m m' : MInv m → mstep m m' → MInv m'.
Proof.
  intros HI Hst. destruct Hst; simpl in *.
  - congruence.
  - rewrite Hparse in H. simplify_eq. split; [done|apply rtc_refl].
  - destruct HI as [-> Hr]. split; [done|]. by eapply rtc_r.
  - destruct HI as [-> Hr]. repeat split; try done. apply Forall2_nil_2.
  - destruct HI as (Hr & Hret & Hrep & Htodo).
    assert (Hl : printers (shared s) !! length reports = Some printer).
    { rewrite <- (Nat.add_0_r (length reports)), <- lookup_drop, <- Htodo. done. }
    repeat split; try done.
    + rewrite length_app. simpl. rewrite Nat.add_1_r.
      rewrite (take_S_r _ _ _ Hl). unfold reports_of in *.
      apply Forall2_app; [done|].
      apply Forall2_cons. split; [by eauto|apply Forall2_nil_2].
    + rewrite length_app. simpl. rewrite Nat.add_1_r.
      rewrite (drop_S _ _ _ Hl) in Htodo. by simplify_eq.
  - destruct HI as (Hr & Hret & Hrep & Htodo).
    split; [done|]. exists s. repeat split; try done.
    symmetry in Htodo. apply drop_nil_inv in Htodo.
    by rewrite take_ge in Hrep.
Qed.

Lemma main_reachable_inv m : rtc mstep MStart m → MInv m.
Proof.
  revert m. apply rtc_ind_r; [done|].
  intros m m' _ Hst HI. by eapply mstep_inv.
Qed.

Lemma positives_length pb : (length (positives pb) <= length pb)%nat.
Proof.
  induction pb as [|[ip b] pb IH]; [done|].
  unfold positives in *. rewrite bind_cons, length_app.
  destruct b; simpl; lia.
Qed.

Lemma printers_le_block s :
  reachable net community W s → returned s →
  (length (printers (shared s)) <= length block)%nat.
Proof.
  intros Hr Hret.
  destruct (returned_exact net community W s HW Hr Hret) as (H1 & H2 & _).
  rewrite (returned_block net community W block exit fuel0 Hexit Hblock s HW Hr Hret) in H1.
  rewrite H2, <- H1, length_fmap. apply positives_length.
Qed.

Definition mmeasure (m : Main) : nat :=
  match m with
  | MStart => 13 * length block + W + 7
  | MScan _ s => measure block s + length block + 3
  | MPoll _ _ todo => length todo + 1
  | MExit _ _ _ => 0
  end.

Lemma mstep_measure m m' : MInv m → mstep m m' → (mmeasure m' < mmeasure m)%nat.
Proof.
  intros HI Hst. destruct Hst; simpl in *.
  - lia.
  - rewrite Hparse in H. simplify_eq. rewrite measure_init. lia.
  - destruct HI as [-> Hr].
    pose proof (step_measure net community W block exit fuel0 Hexit Hblock s s'
                  (reachable_inv _ _ _ _ Hr) H). lia.
  - destruct HI as [-> Hr]. pose proof (printers_le_block s Hr H). lia.
  - lia.
  - lia.
Qed.

(** The process never gets stuck before it has exited with status 0. *)
Lemma main_progress m :
  rtc mstep MStart m →
  (∃ m', mstep m m') ∨
  ∃ s reports, m = MExit 0 (Some s) reports ∧
               reports_of community (printers (shared s)) reports.
Proof.
  intros HI%main_reachable_inv. destruct m as [|net' s|s reports todo|st so reports];
    simpl in HI.
  - left. eexists. by apply m_parsed.
  - destruct HI as [-> Hr]. left.
    destruct (decide (producer s = PReturned)) as [Hret|Hret].
    + eexists. by apply m_scanned.
    + destruct (progress net community W s HW (reachable_inv _ _ _ _ Hr) Hret)
        as [s' Hs'].
      eexists. by apply m_scan.
  - left. destruct todo as [|printer todo].
    + eexists. apply m_exit.
    + eexists. apply (m_poll _ _ _ _ _ _ _ _ key_order silent_device).
  - right. destruct HI as (-> & s & -> & _ & _ & Hrep). by exists s, reports.
Qed.

(** Every run of the process is finite. *)
Lemma main_bounded n m :
  nsteps mstep n MStart m → (n + mmeasure m <= 13 * length block + W + 7)%nat.
Proof.
  revert m. induction n as [|n IH]; intros m H.
  - inversion H; subst. simpl. lia.
  - apply nsteps_inv_r in H as (m0 & H0 & Hst).
    specialize (IH m0 H0).
    assert (MInv m0) by (eapply main_reachable_inv, rtc_nsteps_2; exact H0).
    pose proof (mstep_measure m0 m ltac:(done) Hst). lia.
Qed.

End MainRuns.

(** C7 (amended): with a malformed CIDR the process exits with status 1
    before any probe and any report, whatever the number of workers.
    With a CIDR that parses and at least one worker, no answer of any
    target stops the process: it cannot get stuck, it has no exit other
    than status 0 after one report per discovered printer, and when the
    enumeration of the block ends, as it does on every IPv4 block of
    prefix length 1 to 32, every run is finite.  During discovery a
    target that cannot be reached counts as no printer and the scan goes
    on; in [pollPrinter] a failure to connect or to fetch is printed and
    ends that report alone, and a failed walk is printed as the note of
    its table. *)
Theorem malformed_cidr_fatal_failures_contained
    (ParseCIDR : string → option IPNet) (cidr community : string) (W : nat) :
  (ParseCIDR cidr = None →
   mstep ParseCIDR cidr community W MStart (MExit 1 None []) ∧
   ∀ m, rtc (mstep ParseCIDR cidr community W) MStart m →
        (m = MStart ∨ m = MExit 1 None []) ∧ probed m = [] ∧ polled m = 0%nat) ∧
  (∀ net,
   ParseCIDR cidr = Some net → (1 <= W)%nat →
   (∀ m, rtc (mstep ParseCIDR cidr community W) MStart m →
         (∃ m', mstep ParseCIDR cidr community W m m') ∨
         ∃ s reports, m = MExit 0 (Some s) reports ∧
                      reports_of community (printers (shared s)) reports) ∧
   (∀ status so reports,
      rtc (mstep ParseCIDR cidr community W) MStart (MExit status so reports) →
      status = 0) ∧
   (∀ block exit fuel0,
      enum_loop fuel0 net (IPNet_IP net) = (block, exit) → exit ≠ OutOfFuel →
      ∀ n m, nsteps (mstep ParseCIDR cidr community W) n MStart m →
             (n <= 13 * length block + W + 7)%nat) ∧
   (∀ a p,
      net = ipv4net a p → is_ip4 a → 1 <= p <= 32 →
      ∀ n m, nsteps (mstep ParseCIDR cidr community W) n MStart m →
             (n <= 13 * Z.to_nat (2 ^ (32 - p)) + W + 7)%nat)) ∧
  (∀ ip dev err,
   Connect dev = Some err → checkSNMP ip community dev = (false, [])) ∧
  (∀ ro ip dev err,
   Connect dev = Some err →
   pollPrinter ro ip community dev =
   ["❌ Failed to connect to " +:+ ip +:+ ": " +:+ err]) ∧
  (∀ ro ip dev err,
   Connect dev = None → Get dev pollOids = Err err →
   pollPrinter ro ip community dev =
   ["❌ SNMP Get error for " +:+ ip +:+ ": " +:+ err]) ∧
  (∀ ro ip dev variables entries err,
   Connect dev = None → Get dev pollOids = Ok variables →
   Walk dev suppliesRoot = (entries, Some err) →
   "  Supplies: (No data available: " +:+ err +:+ ")"
     ∈ pollPrinter ro ip community dev) ∧
  (∀ ro ip dev variables entries err,
   Connect dev = None → Get dev pollOids = Ok variables →
   Walk dev traysRoot = (entries, Some err) →
   "  Paper Trays: (No data available: " +:+ err +:+ ")"
     ∈ pollPrinter ro ip community dev).
Proof.
  split; [|split; [|split; [|split; [|split; [|split]]]]].
  - intros Hp. split; [by apply m_fatal|]. intros m Hm.
    by destruct (fatal_only ParseCIDR cidr community W m Hp Hm) as [-> | ->];
      (split; [auto|done]).
  - intros net Hp HW.
    destruct (enum_loop 0 net (IPNet_IP net)) as [block0 exit0] eqn:Hb0.
    assert (Hbound : ∀ block exit fuel0,
      enum_loop fuel0 net (IPNet_IP net) = (block, exit) → exit ≠ OutOfFuel →
      ∀ n m, nsteps (mstep ParseCIDR cidr community W) n MStart m →
             (n <= 13 * length block + W + 7)%nat).
    { intros block exit fuel0 Hb He n m Hn.
      pose proof (main_bounded ParseCIDR cidr community W net Hp HW
                    block exit fuel0 He Hb n m Hn). lia. }
    split; [|split; [|split]].
    + intros m Hm. by eapply main_progress.
    + intros status so reports Hm.
      pose proof (main_reachable_inv ParseCIDR cidr community W net Hp
                    block0 exit0 0%nat Hb0 _ Hm) as HI.
      by destruct HI as [-> _].
    + exact Hbound.
    + intros a p -> Ha Hpr n m Hn.
      pose proof (enum_loop_block a p (S (Z.to_nat (block_size p))) Ha Hpr
                    ltac:(lia)) as Hb.
      pose proof (Hbound _ Exhausted _ Hb ltac:(discriminate) n m Hn) as Hle.
      rewrite length_fmap, length_seqZ in Hle. exact Hle.
  - intros ip dev err. apply checkSNMP_connect_failure.
  - intros ro ip dev err. apply pollPrinter_connect_failure.
  - intros ro ip dev err. apply pollPrinter_get_failure.
  - intros ro ip dev variables entries err.
    apply pollPrinter_supplies_walk_failure.
  - intros ro ip dev variables entries err.
    apply pollPrinter_trays_walk_failure.
Qed.

(** A parser that knows one block, for examples. *)
Definition sample_ParseCIDR (s : string) : option IPNet :=
  if bool_decide (s = "10.0.0.4/30") then Some (ipv4net [10; 0; 0; 4] 30) else None.

Lemma malformed_cidr_fatal_failures_contained_witness :
  (∀ m, rtc (mstep sample_ParseCIDR "not-a-cidr" "public" 0) MStart m →
        (m = MStart ∨ m = MExit 1 None []) ∧ probed m = [] ∧ polled m = 0%nat) ∧
  (∀ m, rtc (mstep sample_ParseCIDR "10.0.0.4/30" "public" 10) MStart m →
        (∃ m', mstep sample_ParseCIDR "10.0.0.4/30" "public" 10 m m') ∨
        ∃ s reports, m = MExit 0 (Some s) reports ∧
                     reports_of "public" (printers (shared s)) reports) ∧
  (∀ n m, nsteps (mstep sample_ParseCIDR "10.0.0.4/30" "public" 10) n MStart m →
          (n <= 13 * 4 + 10 + 7)%nat).
Proof.
  split; [|split].
  - apply (proj1 (malformed_cidr_fatal_failures_contained
                    sample_ParseCIDR "not-a-cidr" "public" 0)).
    reflexivity.
  - apply (proj1 (proj1 (proj2 (malformed_cidr_fatal_failures_contained
                                  sample_ParseCIDR "10.0.0.4/30" "public" 10))
                    (ipv4net [10; 0; 0; 4] 30) eq_refl ltac:(lia))).
  - apply (proj1 (proj2 (proj2
             (proj1 (proj2 (malformed_cidr_fatal_failures_contained
                              sample_ParseCIDR "10.0.0.4/30" "public" 10))
                (ipv4net [10; 0; 0; 4] 30) eq_refl ltac:(lia))))
             [[10; 0; 0; 4]; [10; 0; 0; 5]; [10; 0; 0; 6]; [10; 0; 0; 7]]
             Exhausted 10%nat);
      [vm_compute; reflexivity | discriminate].
Defined.

Example not_a_cidr_is_fatal m :
  rtc (mstep sample_ParseCIDR "not-a-cidr" "public" 10) MStart m →
  m = MStart ∨ m = MExit 1 None [].
Proof. by apply fatal_only. Qed.

(** With [-workers 0] the channel has no buffer and no worker receives:
    the first send of the enumeration loop blocks for ever (the Go
    runtime then stops the process with its deadlock report).  So after
    a CIDR that parses the process is stuck inside [scanNetwork] before
    any probe, and it never completes the scan and exits with status
    0. *)
Lemma zero_workers_never_exits :
  sample_ParseCIDR "10.0.0.4/30" = Some (ipv4net [10; 0; 0; 4] 30) ∧
  rtc (mstep sample_ParseCIDR "10.0.0.4/30" "public" 0) MStart
      (MScan (ipv4net [10; 0; 0; 4] 30) (init (ipv4net [10; 0; 0; 4] 30) 0)) ∧
  (∀ m', ¬ mstep sample_ParseCIDR "10.0.0.4/30" "public" 0
             (MScan (ipv4net [10; 0; 0; 4] 30)
                    (init (ipv4net [10; 0; 0; 4] 30) 0)) m') ∧
  (∀ so reports,
     ¬ rtc (mstep sample_ParseCIDR "10.0.0.4/30" "public" 0) MStart
           (MExit 0 so reports)).
Proof.
  assert (Hstuck : ∀ m', ¬ mstep sample_ParseCIDR "10.0.0.4/30" "public" 0
             (MScan (ipv4net [10; 0; 0; 4] 30)
                    (init (ipv4net [10; 0; 0; 4] 30) 0)) m').
  { intros m' Hst. inversion Hst as [| |net s s' Hs| | |]; subst.
    - unfold init in Hs. simpl in Hs.
      inversion Hs as [ip snt ws ch cl m pr pb out Hc Hl
                      |ip snt ws σ Hc| |p snt ws1 w ws2 σ w' σ' Hw|]; subst.
      + simpl in Hl. lia.
      + vm_compute in Hc. discriminate.
      + by destruct ws1.
    - match goal with H : returned _ |- _ => inversion H end. }
  assert (Hreach : ∀ m,
    rtc (mstep sample_ParseCIDR "10.0.0.4/30" "public" 0) MStart m →
    m = MStart ∨
    m = MScan (ipv4net [10; 0; 0; 4] 30) (init (ipv4net [10; 0; 0; 4] 30) 0)).
  { apply rtc_ind_r; [by left|].
    intros m m' _ Hst [-> | ->].
    - inversion Hst as [Hp|net Hp| | | |]; subst.
      + vm_compute in Hp. discriminate.
      + right. assert (net = ipv4net [10; 0; 0; 4] 30) as ->; [|done].
        change (sample_ParseCIDR "10.0.0.4/30")
          with (Some (ipv4net [10; 0; 0; 4] 30)) in Hp.
        congruence.
    - by destruct (Hstuck m'). }
  split; [reflexivity|]. split; [|split].
  - apply rtc_once. by apply m_parsed.
  - exact Hstuck.
  - intros so reports Hm. by destruct (Hreach _ Hm).
Qed.

(** * Further properties of the program *)

(** ** The enumeration of an IPv4 block *)

(** X1: for an IPv4 block of prefix length 1 to 32, given enough
    iterations, the loop of [scanNetwork] leaves because the block is
    exhausted, and the 32-bit values of the addresses it has sent are
    the consecutive integers from the network address (the given address
    with its host bits cleared) to the broadcast address: 2^(32-p)
    addresses, ascending, none twice, none skipped. *)
Theorem ipv4_block_enumerated (a : IP) (p : Z) (fuel : nat) :
  is_ip4 a → 1 <= p <= 32 → (Z.to_nat (2 ^ (32 - p)) < fuel)%nat →
  ∃ sent,
    enum_loop fuel (ipv4net a p) (IPNet_IP (ipv4net a p)) = (sent, Exhausted) ∧
    ipToZ <$> sent = seqZ (ipToZ a / 2 ^ (32 - p) * 2 ^ (32 - p)) (2 ^ (32 - p)) ∧
    Forall is_ip4 sent ∧
    NoDup sent ∧
    Z.of_nat (length sent) = 2 ^ (32 - p).
Proof.
  intros Ha Hp Hf. fold (block_size p) in *. fold (block_base a p).
  pose proof (block_size_pos p ltac:(lia)) as Hs.
  pose proof (block_base_range a p Ha ltac:(lia)) as [Hb0 Hb1].
  exists (ipOfZ <$> seqZ (block_base a p) (block_size p)).
  assert (Hv : ipToZ <$> (ipOfZ <$> seqZ (block_base a p) (block_size p))
               = seqZ (block_base a p) (block_size p))
    by (apply ipToZ_ipOfZ_seqZ; lia).
  split; [by apply enum_loop_block|]. split; [done|]. split; [|split].
  - apply Forall_fmap, Forall_forall. intros v _. apply ipOfZ_ip4.
  - apply (NoDup_fmap_1 ipToZ). rewrite Hv. apply NoDup_seqZ.
  - rewrite length_fmap, length_seqZ. lia.
Qed.

Lemma ipv4_block_enumerated_witness :
  ∃ sent,
    enum_loop 10 (ipv4net [10; 0; 0; 6] 30) (IPNet_IP (ipv4net [10; 0; 0; 6] 30))
      = (sent, Exhausted) ∧
    ipToZ <$> sent =
      seqZ (ipToZ [10; 0; 0; 6] / 2 ^ (32 - 30) * 2 ^ (32 - 30)) (2 ^ (32 - 30)) ∧
    Forall is_ip4 sent ∧
    NoDup sent ∧
    Z.of_nat (length sent) = 2 ^ (32 - 30).
Proof.
  apply (ipv4_block_enumerated [10; 0; 0; 6] 30 10).
  - apply is_ip4_intro; unfold octet; lia.
  - lia.
  - vm_compute. lia.
Defined.

(** ** Discovery on any network *)

Definition sample_net : IPNet := ipv4net [10; 0; 0; 4] 30.

Definition sample_block : list IP :=
  [[10; 0; 0; 4]; [10; 0; 0; 5]; [10; 0; 0; 6]; [10; 0; 0; 7]].

Lemma sample_block_enum :
  enum_loop 10 sample_net (IPNet_IP sample_net) = (sample_block, Exhausted).
Proof. vm_compute. reflexivity. Qed.

(** X2: for a network whose enumeration loop ends having sent [block]
    (through the end of the block or through the nil check), and at
    least one worker: discovery never deadlocks, no run has more than
    [12 * |block| + 3 + W] steps, some run returns, and whenever
    [scanNetwork] returns the addresses probed are a permutation of
    [block] and [printers] is a permutation of the positive ones. *)
Theorem discovery_complete (net : IPNet) (community : string) (W : nat)
    (block : list IP) (exit : LoopExit) (fuel0 : nat) :
  (1 <= W)%nat →
  exit ≠ OutOfFuel →
  enum_loop fuel0 net (IPNet_IP net) = (block, exit) →
  (∀ s, reachable net community W s → ¬ returned s →
        ∃ s', step net community W s s') ∧
  (∀ n s, nsteps (step net community W) n (init net W) s →
          (n <= 12 * length block + 3 + W)%nat) ∧
  (∃ s, reachable net community W s ∧ returned s) ∧
  (∀ s, reachable net community W s → returned s →
        (probes (shared s)).*1 ≡ₚ block ∧
        printers (shared s) ≡ₚ positives (probes (shared s))).
Proof.
  intros HW He Hb. split; [|split; [|split]].
  - intros s Hr Hret. apply progress; [done| |done]. by eapply reachable_inv.
  - intros n s Hn.
    pose proof (run_bounded net community W block exit fuel0 He Hb n s Hn). lia.
  - destruct (reaches_return net community W block exit fuel0 He Hb
                (init net W) HW (rtc_refl _ _)) as (s & Hs & Hret).
    by exists s.
  - intros s Hr Hret.
    pose proof (returned_block net community W block exit fuel0 He Hb s HW Hr Hret) as Hs.
    destruct (returned_exact net community W s HW Hr Hret) as (H1 & H2 & _).
    by rewrite Hs in H1.
Qed.

Lemma discovery_complete_witness :
  (∀ s, reachable sample_net "public" 2 s → ¬ returned s →
        ∃ s', step sample_net "public" 2 s s') ∧
  (∀ n s, nsteps (step sample_net "public" 2) n (init sample_net 2) s →
          (n <= 12 * length sample_block + 3 + 2)%nat) ∧
  (∃ s, reachable sample_net "public" 2 s ∧ returned s) ∧
  (∀ s, reachable sample_net "public" 2 s → returned s →
        (probes (shared s)).*1 ≡ₚ sample_block ∧
        printers (shared s) ≡ₚ positives (probes (shared s))).
Proof.
  apply (discovery_complete sample_net "public" 2 sample_block Exhausted 10).
  - lia.
  - discriminate.
  - vm_compute. reflexivity.
Defined.

(** ** What the pool keeps at every moment *)

Lemma inflight_length ws : (length (inflight ws) <= length ws)%nat.
Proof.
  induction ws as [|w ws IH]; [done|].
  unfold inflight in *. rewrite bind_cons, length_app.
  destruct w; simpl; lia.
Qed.

(** A state of the pool on the sample block with two workers: the
    producer has sent the first address and the first worker has taken
    it. *)
Definition sample_pool : Pool :=
  mkPool (PLoop [10; 0; 0; 5]) [[10; 0; 0; 4]] [WProbe [10; 0; 0; 4]; WRecv]
         (mkShared [] false false [] [] []).

Lemma sample_pool_reachable : reachable sample_net "public" 2 sample_pool.
Proof.
  unfold reachable. eapply rtc_l.
  { apply (step_send sample_net "public" 2 [10; 0; 0; 4]); [reflexivity|simpl; lia]. }
  eapply rtc_l; [|apply rtc_refl].
  apply (step_worker sample_net "public" 2 _ _ [] WRecv [WRecv]). apply ws_recv.
Qed.

(** A device that answers the status request and no other. *)
Definition printer_device : Device :=
  {| Connect := None;
     Get := λ oids,
       if bool_decide (oids = [".1.3.6.1.2.1.25.3.5.1.1.1"])
       then Ok [ {| Name := ".1.3.6.1.2.1.25.3.5.1.1.1"; Type_ := OtherType;
                    Value_ := VInt 3 |} ]
       else Err "request timeout";
     Walk := λ _, ([], None) |}.

(** A run of discovery on 10.0.0.4/31 with one worker: 10.0.0.4 answers
    as a printer, 10.0.0.5 does not answer. *)
Definition pair_net : IPNet := ipv4net [10; 0; 0; 4] 31.

Definition pair_pool : Pool :=
  mkPool PReturned [[10; 0; 0; 4]; [10; 0; 0; 5]] [WDone]
         (mkShared [] true false ["10.0.0.4"]
                   [([10; 0; 0; 4], true); ([10; 0; 0; 5], false)]
                   ["🎯 Found printer: 10.0.0.4 → (unnamed)"]).

Lemma pair_pool_reachable : reachable pair_net "public" 1 pair_pool.
Proof.
  unfold reachable.
  eapply rtc_l.
  { apply (step_send pair_net "public" 1 [10; 0; 0; 4]); [reflexivity|simpl; lia]. }
  eapply rtc_l.
  { apply (step_worker pair_net "public" 1 _ _ [] WRecv []). apply ws_recv. }
  eapply rtc_l.
  { apply (step_send pair_net "public" 1 [10; 0; 0; 5]); [reflexivity|simpl; lia]. }
  eapply rtc_l.
  { apply (step_exhausted pair_net "public" 1 [10; 0; 0; 6]). reflexivity. }
  eapply rtc_l.
  { apply step_close. }
  eapply rtc_l.
  { apply (step_worker pair_net "public" 1 _ _ [] (WProbe [10; 0; 0; 4]) []).
    apply (ws_probe "public" [10; 0; 0; 4] printer_device true
                    ["🎯 Found printer: 10.0.0.4 → (unnamed)"]).
    vm_compute. reflexivity. }
  eapply rtc_l.
  { apply (step_worker pair_net "public" 1 _ _ [] (WLock [10; 0; 0; 4]) []).
    apply ws_lock. }
  eapply rtc_l.
  { apply (step_worker pair_net "public" 1 _ _ [] (WRead [10; 0; 0; 4]) []).
    apply ws_read. }
  eapply rtc_l.
  { apply (step_worker pair_net "public" 1 _ _ [] (WWrite [10; 0; 0; 4] []) []).
    apply ws_write. }
  eapply rtc_l.
  { apply (step_worker pair_net "public" 1 _ _ [] WUnlock []). apply ws_unlock. }
  eapply rtc_l.
  { apply (step_worker pair_net "public" 1 _ _ [] WRecv []). apply ws_recv. }
  eapply rtc_l.
  { apply (step_worker pair_net "public" 1 _ _ [] (WProbe [10; 0; 0; 5]) []).
    apply (ws_probe "public" [10; 0; 0; 5] silent_device false []).
    vm_compute. reflexivity. }
  eapply rtc_l.
  { apply (step_worker pair_net "public" 1 _ _ [] WRecv []). apply ws_range_end. }
  eapply rtc_l; [|apply rtc_refl].
  apply step_join. by repeat constructor.
Qed.

(** A state of the pool on the sample block with two workers, inside the
    critical section: 10.0.0.4 is in [printers]; the first worker holds
    the mutex and has read [printers] for the append of 10.0.0.5; the
    second waits at [mu.Lock()] with 10.0.0.6. *)
Definition locked_pool : Pool :=
  mkPool (PLoop [10; 0; 0; 7]) [[10; 0; 0; 4]; [10; 0; 0; 5]; [10; 0; 0; 6]]
         [WWrite [10; 0; 0; 5] ["10.0.0.4"]; WLock [10; 0; 0; 6]]
         (mkShared [] false true ["10.0.0.4"]
                   [([10; 0; 0; 4], true); ([10; 0; 0; 5], true);
                    ([10; 0; 0; 6], true)]
                   ["🎯 Found printer: 10.0.0.4 → (unnamed)";
                    "🎯 Found printer: 10.0.0.5 → (unnamed)";
                    "🎯 Found printer: 10.0.0.6 → (unnamed)"]).

Lemma locked_pool_reachable : reachable sample_net "public" 2 locked_pool.
Proof.
  unfold reachable.
  eapply rtc_l.
  { apply (step_send sample_net "public" 2 [10; 0; 0; 4]); [reflexivity|simpl; lia]. }
  eapply rtc_l.
  { apply (step_worker sample_net "public" 2 _ _ [] WRecv [WRecv]). apply ws_recv. }
  eapply rtc_l.
  { apply (step_worker sample_net "public" 2 _ _ [] (WProbe [10; 0; 0; 4]) [WRecv]).
    apply (ws_probe "public" [10; 0; 0; 4] printer_device true
                    ["🎯 Found printer: 10.0.0.4 → (unnamed)"]).
    vm_compute. reflexivity. }
  eapply rtc_l.
  { apply (step_worker sample_net "public" 2 _ _ [] (WLock [10; 0; 0; 4]) [WRecv]).
    apply ws_lock. }
  eapply rtc_l.
  { apply (step_worker sample_net "public" 2 _ _ [] (WRead [10; 0; 0; 4]) [WRecv]).
    apply ws_read. }
  eapply rtc_l.
  { apply (step_worker sample_net "public" 2 _ _ [] (WWrite [10; 0; 0; 4] []) [WRecv]).
    apply ws_write. }
  eapply rtc_l.
  { apply (step_worker sample_net "public" 2 _ _ [] WUnlock [WRecv]). apply ws_unlock. }
  eapply rtc_l.
  { apply (step_send sample_net "public" 2 [10; 0; 0; 5]); [reflexivity|simpl; lia]. }
  eapply rtc_l.
  { apply (step_send sample_net "public" 2 [10; 0; 0; 6]); [reflexivity|simpl; lia]. }
  eapply rtc_l.
  { apply (step_worker sample_net "public" 2 _ _ [] WRecv [WRecv]). apply ws_recv. }
  eapply rtc_l.
  { apply (step_worker sample_net "public" 2 _ _ [WProbe [10; 0; 0; 5]] WRecv []).
    apply ws_recv. }
  eapply rtc_l.
  { apply (step_worker sample_net "public" 2 _ _ [] (WProbe [10; 0; 0; 5])
             [WProbe [10; 0; 0; 6]]).
    apply (ws_probe "public" [10; 0; 0; 5] printer_device true
                    ["🎯 Found printer: 10.0.0.5 → (unnamed)"]).
    vm_compute. reflexivity. }
  eapply rtc_l.
  { apply (step_worker sample_net "public" 2 _ _ [WLock [10; 0; 0; 5]]
             (WProbe [10; 0; 0; 6]) []).
    apply (ws_probe "public" [10; 0; 0; 6] printer_device true
                    ["🎯 Found printer: 10.0.0.6 → (unnamed)"]).
    vm_compute. reflexivity. }
  eapply rtc_l.
  { apply (step_worker sample_net "public" 2 _ _ [] (WLock [10; 0; 0; 5])
             [WLock [10; 0; 0; 6]]).
    apply ws_lock. }
  eapply rtc_l; [|apply rtc_refl].
  apply (step_worker sample_net "public" 2 _ _ [] (WRead [10; 0; 0; 5])
           [WLock [10; 0; 0; 6]]).
  apply ws_read.
Qed.

Example locked_pool_in_critical_section :
  mu (shared locked_pool) = true ∧
  holders (workers locked_pool) = 1%nat ∧
  pending (workers locked_pool) = ["10.0.0.5"; "10.0.0.6"] ∧
  printers (shared locked_pool) = ["10.0.0.4"].
Proof. vm_compute. repeat split. Qed.

(** X3: at every moment of discovery, on any network and with any number
    of workers, the addresses sent so far are exactly those in the
    buffer of [ipChan], those being probed and those probed (as
    multisets: none lost, none handed out twice); at most [W] probes are
    in flight and at most [W] addresses are buffered. *)
Theorem pool_accounting (net : IPNet) (community : string) (W : nat) (s : Pool) :
  reachable net community W s →
  sent s ≡ₚ ipChan (shared s) ++ inflight (workers s) ++ (probes (shared s)).*1 ∧
  (length (inflight (workers s)) <= W)%nat ∧
  (length (ipChan (shared s)) <= W)%nat.
Proof.
  intros [Hs _ _ _ _ _ _ Hw Hch _]%reachable_inv.
  split; [done|]. split; [|done].
  rewrite <- Hw. apply inflight_length.
Qed.

Lemma pool_accounting_witness :
  sent sample_pool ≡ₚ
    ipChan (shared sample_pool) ++ inflight (workers sample_pool)
    ++ (probes (shared sample_pool)).*1 ∧
  (length (inflight (workers sample_pool)) <= 2)%nat ∧
  (length (ipChan (shared sample_pool)) <= 2)%nat.
Proof.
  apply (pool_accounting sample_net "public" 2 sample_pool sample_pool_reachable).
Defined.

(** X4: at every moment at most one worker is between [mu.Lock()] and
    [mu.Unlock()], none is when the mutex is free, and a worker that has
    read [printers] for its [append] still holds the current slice when
    it stores the result: no append is lost. *)
Theorem mutex_excludes (net : IPNet) (community : string) (W : nat) (s : Pool) :
  reachable net community W s →
  (holders (workers s) <= 1)%nat ∧
  (mu (shared s) = false → holders (workers s) = 0%nat) ∧
  (∀ ip old, WWrite ip old ∈ workers s → old = printers (shared s)) ∧
  positives (probes (shared s)) ≡ₚ printers (shared s) ++ pending (workers s).
Proof.
  intros [_ Hp Hm Ho _ _ _ _ _ _]%reachable_inv.
  repeat split; try done.
  - rewrite Hm. destruct (mu (shared s)); lia.
  - intros Hmu. by rewrite Hm, Hmu.
Qed.

Lemma mutex_excludes_witness :
  ((holders (workers locked_pool) <= 1)%nat ∧
   (mu (shared locked_pool) = false → holders (workers locked_pool) = 0%nat) ∧
   (∀ ip old, WWrite ip old ∈ workers locked_pool →
              old = printers (shared locked_pool)) ∧
   positives (probes (shared locked_pool))
     ≡ₚ printers (shared locked_pool) ++ pending (workers locked_pool)) ∧
  ["10.0.0.4"] = printers (shared locked_pool) ∧
  holders (workers pair_pool) = 0%nat.
Proof.
  split; [|split].
  - apply (mutex_excludes sample_net "public" 2 locked_pool locked_pool_reachable).
  - apply (proj1 (proj2 (proj2
             (mutex_excludes sample_net "public" 2 locked_pool
                locked_pool_reachable))) [10; 0; 0; 5]).
    constructor.
  - apply (proj1 (proj2
             (mutex_excludes pair_net "public" 1 pair_pool pair_pool_reachable))).
    reflexivity.
Defined.

(** X5: the channel is open as long as the producer is in its loop (no
    send on a closed channel), a worker leaves its [range] loop only
    once the channel is closed and its buffer empty, and [scanNetwork]
    returns only when every worker has left. *)
Theorem channel_lifecycle (net : IPNet) (community : string) (W : nat) (s : Pool) :
  reachable net community W s →
  (∀ ip, producer s = PLoop ip → closed (shared s) = false) ∧
  (WDone ∈ workers s → closed (shared s) = true ∧ ipChan (shared s) = []) ∧
  (returned s → Forall (eq WDone) (workers s)).
Proof.
  intros [_ _ _ _ Hc Hd Hr _ _ _]%reachable_inv.
  split; [|split; done].
  intros ip Hp. by rewrite Hc, Hp.
Qed.

Lemma channel_lifecycle_witness :
  closed (shared sample_pool) = false ∧
  (closed (shared pair_pool) = true ∧ ipChan (shared pair_pool) = []) ∧
  Forall (eq WDone) (workers pair_pool).
Proof.
  split; [|split].
  - apply (proj1 (channel_lifecycle sample_net "public" 2 sample_pool
                    sample_pool_reachable) [10; 0; 0; 5]).
    reflexivity.
  - apply (proj1 (proj2 (channel_lifecycle pair_net "public" 1 pair_pool
                           pair_pool_reachable))).
    constructor.
  - apply (proj2 (proj2 (channel_lifecycle pair_net "public" 1 pair_pool
                           pair_pool_reachable))).
    reflexivity.
Defined.

Lemma sent_in_net net community W s :
  reachable net community W s → Forall (λ ip, Contains net ip = true) (sent s).
Proof.
  revert s. apply rtc_ind_r; [apply Forall_nil_2|].
  intros s s' _ Hst IH. destruct Hst; simpl in *; try done.
  apply Forall_app. split; [done|]. by apply Forall_singleton.
Qed.

(** X6: discovery never probes an address outside the network it was
    given, and never records a printer that was not probed positive:
    every address sent or probed is contained in the network, and every
    name in [printers] is the name of an address whose probe returned
    true. *)
Theorem probes_stay_in_network (net : IPNet) (community : string) (W : nat)
    (s : Pool) :
  reachable net community W s →
  Forall (λ ip, Contains net ip = true) (sent s) ∧
  Forall (λ ip, Contains net ip = true) (probes (shared s)).*1 ∧
  printers (shared s) ⊆ positives (probes (shared s)).
Proof.
  intros Hr. pose proof (sent_in_net _ _ _ _ Hr) as Hs.
  destruct (reachable_inv _ _ _ _ Hr) as [Hsent Hp _ _ _ _ _ _ _ _].
  split; [done|]. split.
  - rewrite Hsent in Hs. by apply Forall_app in Hs as [_ [_ ?]%Forall_app].
  - intros x Hx. rewrite Hp. apply elem_of_app. by left.
Qed.

Lemma probes_stay_in_network_witness :
  Forall (λ ip, Contains sample_net ip = true) (sent sample_pool) ∧
  Forall (λ ip, Contains sample_net ip = true) (probes (shared sample_pool)).*1 ∧
  printers (shared sample_pool) ⊆ positives (probes (shared sample_pool)).
Proof.
  apply (probes_stay_in_network sample_net "public" 2 sample_pool
           sample_pool_reachable).
Defined.

(** ** [checkSNMP] *)

(** X7: [checkSNMP] returns true exactly when the connection succeeds and
    the response to the status request has a first variable that is not
    [NoSuchObject]; what the naming request answers, or that it fails,
    does not change the result.  A negative probe prints nothing; a
    positive one prints one line that names the address. *)
Theorem checkSNMP_result (ip community : string) (dev : Device) :
  ((checkSNMP ip community dev).1 = true ↔
   Connect dev = None ∧
   ∃ v vs, Get dev [".1.3.6.1.2.1.25.3.5.1.1.1"] = Ok (v :: vs) ∧
           Type_ v = OtherType) ∧
  ((checkSNMP ip community dev).1 = false → (checkSNMP ip community dev).2 = []) ∧
  ((checkSNMP ip community dev).1 = true →
   ∃ name, (checkSNMP ip community dev).2 =
           ["🎯 Found printer: " +:+ ip +:+ " → " +:+ name]).
Proof.
  unfold checkSNMP.
  destruct (Connect dev) as [err|] eqn:Hc.
  { split; [split; [intros [=]|intros [[=] _]]|split; [done|intros [=]]]. }
  destruct (Get dev [".1.3.6.1.2.1.25.3.5.1.1.1"]) as [[|v vs]|err] eqn:Hg.
  { split; [split; [intros [=]|intros (_ & ? & ? & [=] & _)]|split; [done|intros [=]]]. }
  2: { split; [split; [intros [=]|intros (_ & ? & ? & [=] & _)]|split; [done|intros [=]]]. }
  destruct (Type_ v) eqn:Ht.
  { split; [split; [intros [=]|intros (_ & ? & ? & [= <- _] & ?); congruence]
           |split; [done|intros [=]]]. }
  set (name := match Get dev nameOids with
               | Ok variables => firstName variables
               | Err _ => ""
               end).
  case_bool_decide; simpl; (split; [|split]; [|done|]).
  - split; [intros _; split; [done|by exists v, vs]|done].
  - intros _. by exists "(unnamed)".
  - split; [intros _; split; [done|by exists v, vs]|done].
  - intros _. by exists name.
Qed.

Lemma checkSNMP_lines ip community dev b lines :
  checkSNMP ip community dev = (b, lines) →
  lines = [] ∧ b = false ∨
  b = true ∧ ∃ name, lines = ["🎯 Found printer: " +:+ ip +:+ " → " +:+ name].
Proof.
  unfold checkSNMP.
  destruct (Connect dev); [intros [= <- <-]; by left|].
  destruct (Get dev [".1.3.6.1.2.1.25.3.5.1.1.1"]) as [[|v vs]|err];
    try (intros [= <- <-]; by left).
  destruct (Type_ v); [intros [= <- <-]; by left|].
  case_bool_decide; intros [= <- <-]; right; (split; [done|]); eauto.
Qed.

(** ** The lines of discovery *)

Definition found_line (name line : string) : Prop :=
  ∃ label, line = "🎯 Found printer: " +:+ name +:+ " → " +:+ label.

Lemma stdout_positives net community W s :
  reachable net community W s →
  Forall2 found_line (positives (probes (shared s))) (stdout (shared s)).
Proof.
  revert s. apply rtc_ind_r; [apply Forall2_nil_2|].
  intros s s' _ Hst IH. destruct Hst; simpl in *; try done.
  destruct H; simpl in *; try done.
  rewrite positives_snoc. apply Forall2_app; [done|].
  apply checkSNMP_lines in H as [[-> ->]|[-> [name ->]]]; simpl.
  - apply Forall2_nil_2.
  - apply Forall2_cons. split; [by exists name|apply Forall2_nil_2].
Qed.

(** X8: at every moment of discovery standard output holds exactly one
    "Found printer" line per positive probe, in the order in which the
    probes returned, each naming its address; so when [scanNetwork]
    returns, as many lines have been printed as [printers] has
    entries. *)
Theorem discovery_lines (net : IPNet) (community : string) (W : nat) (s : Pool) :
  reachable net community W s →
  Forall2 found_line (positives (probes (shared s))) (stdout (shared s)) ∧
  ((1 <= W)%nat → returned s →
   length (stdout (shared s)) = length (printers (shared s))).
Proof.
  intros Hr. pose proof (stdout_positives _ _ _ _ Hr) as H.
  split; [done|]. intros HW Hret.
  destruct (returned_exact net community W s HW Hr Hret) as (_ & Hp & _).
  rewrite Hp. symmetry. by eapply Forall2_length.
Qed.

Lemma discovery_lines_witness :
  Forall2 found_line (positives (probes (shared pair_pool)))
          (stdout (shared pair_pool)) ∧
  length (stdout (shared pair_pool)) = length (printers (shared pair_pool)).
Proof.
  split.
  - apply (proj1 (discovery_lines pair_net "public" 1 pair_pool
                    pair_pool_reachable)).
  - apply (proj2 (discovery_lines pair_net "public" 1 pair_pool
                    pair_pool_reachable)); [lia|reflexivity].
Defined.

(** [firstName] passes over the variables that hold no string or an
    empty one. *)
Lemma firstName_skip (pre rest : list SnmpPDU) :
  Forall (λ u, ∀ t, Value_ u = VString t → t = "") pre →
  firstName (pre ++ rest) = firstName rest.
Proof.
  intros Hpre. induction Hpre as [|u pre Hu _ IH]; [done|].
  simpl. destruct (Value_ u) as [t| |] eqn:E; try done.
  rewrite (Hu t eq_refl). by rewrite bool_decide_true.
Qed.

(** X9: for a target that passes the status check, the line [checkSNMP]
    prints names the first non-empty string among the variables of the
    naming response, in the order of the response; variables that hold
    no string, or an empty one, are passed over.  When no variable holds
    a non-empty string, or the naming request fails, the line reads
    "(unnamed)". *)
Theorem checkSNMP_prints_first_name (ip community : string) (dev : Device)
    (v : SnmpPDU) (vs : list SnmpPDU) :
  Connect dev = None →
  Get dev [".1.3.6.1.2.1.25.3.5.1.1.1"] = Ok (v :: vs) →
  Type_ v = OtherType →
  (∀ pre u post s,
     Get dev nameOids = Ok (pre ++ u :: post) →
     Forall (λ w, ∀ t, Value_ w = VString t → t = "") pre →
     Value_ u = VString s → s ≠ "" →
     checkSNMP ip community dev =
     (true, ["🎯 Found printer: " +:+ ip +:+ " → " +:+ s])) ∧
  (∀ variables,
     Get dev nameOids = Ok variables →
     Forall (λ w, ∀ t, Value_ w = VString t → t = "") variables →
     checkSNMP ip community dev =
     (true, ["🎯 Found printer: " +:+ ip +:+ " → (unnamed)"])) ∧
  (∀ err,
     Get dev nameOids = Err err →
     checkSNMP ip community dev =
     (true, ["🎯 Found printer: " +:+ ip +:+ " → (unnamed)"])).
Proof.
  intros Hc Hg Ht. unfold checkSNMP. rewrite Hc, Hg, Ht.
  split; [|split].
  - intros pre u post s Hn Hpre Hu Hs. rewrite Hn.
    rewrite (firstName_skip pre (u :: post) Hpre). simpl. rewrite Hu.
    rewrite (bool_decide_false (s = "")) by done.
    by rewrite (bool_decide_false (s = "")) by done.
  - intros variables Hn Hall. rewrite Hn.
    rewrite <- (app_nil_r variables), (firstName_skip variables [] Hall).
    reflexivity.
  - intros err Hn. rewrite Hn. reflexivity.
Qed.

(** A printer whose name variable is empty and whose description is
    not. *)
Definition named_device : Device :=
  {| Connect := None;
     Get := λ oids,
       if bool_decide (oids = [".1.3.6.1.2.1.25.3.5.1.1.1"])
       then Ok [ {| Name := ".1.3.6.1.2.1.25.3.5.1.1.1"; Type_ := OtherType;
                    Value_ := VInt 3 |} ]
       else if bool_decide (oids = nameOids)
       then Ok [ {| Name := ".1.3.6.1.2.1.43.5.1.1.16.1"; Type_ := OtherType;
                    Value_ := VString "" |};
                 {| Name := ".1.3.6.1.2.1.1.1.0"; Type_ := OtherType;
                    Value_ := VString "HP LaserJet 4200" |};
                 {| Name := ".1.3.6.1.2.1.1.5.0"; Type_ := OtherType;
                    Value_ := VString "lj-4200" |} ]
       else Err "request timeout";
     Walk := λ _, ([], None) |}.

Lemma checkSNMP_prints_first_name_witness :
  checkSNMP "10.0.0.4" "public" named_device =
  (true, ["🎯 Found printer: 10.0.0.4 → HP LaserJet 4200"]).
Proof.
  apply (proj1 (checkSNMP_prints_first_name "10.0.0.4" "public" named_device
                  {| Name := ".1.3.6.1.2.1.25.3.5.1.1.1"; Type_ := OtherType;
                     Value_ := VInt 3 |} [] eq_refl eq_refl eq_refl)
           [ {| Name := ".1.3.6.1.2.1.43.5.1.1.16.1"; Type_ := OtherType;
                Value_ := VString "" |} ]
           {| Name := ".1.3.6.1.2.1.1.1.0"; Type_ := OtherType;
              Value_ := VString "HP LaserJet 4200" |}
           [ {| Name := ".1.3.6.1.2.1.1.5.0"; Type_ := OtherType;
                Value_ := VString "lj-4200" |} ]
           "HP LaserJet 4200").
  - reflexivity.
  - apply Forall_cons_2; [intros t [= <-]; reflexivity|apply Forall_nil_2].
  - reflexivity.
  - discriminate.
Defined.

(** ** The status line of a report *)

Lemma printerStatusMap_other val :
  ¬ (1 <= val <= 5) → printerStatusMap !! val = None.
Proof.
  intros H. unfold printerStatusMap. simpl.
  rewrite !lookup_insert_ne by lia. apply lookup_empty.
Qed.

(** X10: the variable of [hrPrinterStatus] with an integer value prints
    one status line: the name of the code for the codes 1 to 5, and the
    number followed by "(unknown)" for every other code; with a value
    that is no integer it prints nothing. *)
Theorem status_line (ty : Asn1BER) (v : Value) :
  let lines := variableLines {| Name := ".1.3.6.1.2.1.25.3.5.1.1.1";
                                 Type_ := ty; Value_ := v |} in
  (∀ val name,
     v = VInt val →
     (val, name) ∈ [(1, "other"); (2, "unknown"); (3, "idle");
                    (4, "printing"); (5, "warmup")] →
     lines = ["  Printer Status: " +:+ name]) ∧
  (∀ val, v = VInt val → ¬ (1 <= val <= 5) →
          lines = ["  Printer Status: " +:+ fmt_d val +:+ " (unknown)"]) ∧
  ((∀ val, v ≠ VInt val) → lines = []).
Proof.
  intros lines. subst lines. unfold variableLines.
  rewrite (bool_decide_false (_ = ".1.3.6.1.2.1.1.1.0")) by done.
  rewrite (bool_decide_false (_ = ".1.3.6.1.2.1.43.5.1.1.16.1")) by done.
  rewrite (bool_decide_true (_ = ".1.3.6.1.2.1.25.3.5.1.1.1")) by done.
  simpl. split; [|split].
  - intros val name -> Hin.
    repeat (apply elem_of_cons in Hin as [[= -> ->]|Hin]; [reflexivity|]).
    by apply elem_of_nil in Hin.
  - intros val -> Hval. by rewrite printerStatusMap_other.
  - intros Hv. destruct v as [s|val|]; try done. by destruct (Hv val).
Qed.

(** ** The maps filled by the walks *)

Lemma supplyWalkFn_is_Some supplies e i :
  is_Some (supplyWalkFn supplies e !! i) ↔
  is_Some (supplies !! i) ∨ (dotted (Name e) ∧ pduIndex (Name e) = i).
Proof.
  destruct (decide (dotted (Name e))) as [Hd|Hd].
  - rewrite supplyWalkFn_dotted by done.
    destruct (decide (pduIndex (Name e) = i)) as [<-|Hne].
    + rewrite lookup_insert_eq. split; [by right|by eauto].
    + rewrite lookup_insert_ne by done. tauto.
  - rewrite supplyWalkFn_undotted by done. tauto.
Qed.

Lemma trayWalkFn_is_Some trays e i :
  is_Some (trayWalkFn trays e !! i) ↔
  is_Some (trays !! i) ∨ (dotted (Name e) ∧ pduIndex (Name e) = i).
Proof.
  destruct (decide (dotted (Name e))) as [Hd|Hd].
  - rewrite trayWalkFn_dotted by done.
    destruct (decide (pduIndex (Name e) = i)) as [<-|Hne].
    + rewrite lookup_insert_eq. split; [by right|by eauto].
    + rewrite lookup_insert_ne by done. tauto.
  - rewrite trayWalkFn_undotted by done. tauto.
Qed.

Lemma fold_supplyWalkFn_is_Some entries : ∀ supplies i,
  is_Some (fold_left supplyWalkFn entries supplies !! i) ↔
  is_Some (supplies !! i) ∨
  ∃ e, e ∈ entries ∧ dotted (Name e) ∧ pduIndex (Name e) = i.
Proof.
  induction entries as [|e entries IH]; intros supplies i; simpl.
  - split; [by left|]. intros [?|(e & He & _)]; [done|]. by apply elem_of_nil in He.
  - rewrite IH, supplyWalkFn_is_Some. split.
    + intros [[?|[? ?]]|(e' & ? & ? & ?)]; [by left| |].
      * right. exists e. split; [apply elem_of_cons; by left|done].
      * right. exists e'. split; [apply elem_of_cons; by right|done].
    + intros [?|(e' & [->|?]%elem_of_cons & ? & ?)];
        [by left; left|by left; right|right; by exists e'].
Qed.

Lemma fold_trayWalkFn_is_Some entries : ∀ trays i,
  is_Some (fold_left trayWalkFn entries trays !! i) ↔
  is_Some (trays !! i) ∨
  ∃ e, e ∈ entries ∧ dotted (Name e) ∧ pduIndex (Name e) = i.
Proof.
  induction entries as [|e entries IH]; intros trays i; simpl.
  - split; [by left|]. intros [?|(e & He & _)]; [done|]. by apply elem_of_nil in He.
  - rewrite IH, trayWalkFn_is_Some. split.
    + intros [[?|[? ?]]|(e' & ? & ? & ?)]; [by left| |].
      * right. exists e. split; [apply elem_of_cons; by left|done].
      * right. exists e'. split; [apply elem_of_cons; by right|done].
    + intros [?|(e' & [->|?]%elem_of_cons & ? & ?)];
        [by left; left|by left; right|right; by exists e'].
Qed.

(** X11: after a walk the map has a record under an index exactly when
    some entry with a dot in its name has that index as the number read
    from its last component, whatever the column and the value of the
    entry; so an index no entry named has no record, and an entry of an
    unknown column or of a mismatched type still creates a (zero)
    record. *)
Theorem walk_records (entries : list SnmpPDU) (i : Z) :
  (is_Some (walkSupplies entries !! i) ↔
   ∃ e, e ∈ entries ∧ dotted (Name e) ∧ pduIndex (Name e) = i) ∧
  (is_Some (walkTrays entries !! i) ↔
   ∃ e, e ∈ entries ∧ dotted (Name e) ∧ pduIndex (Name e) = i).
Proof.
  unfold walkSupplies, walkTrays.
  rewrite fold_supplyWalkFn_is_Some, fold_trayWalkFn_is_Some, !lookup_empty.
  split; (split; [intros [[? [=]]|?]; done|by right]).
Qed.

#[global] Instance Column_eq_dec : EqDecision Column.
Proof. solve_decision. Defined.

(** The field an entry writes: the column its name selects, when its
    value has the type that column stores; [None] when the entry only
    makes sure that the record exists. *)
Definition storeField (c : Column) (v : Value) : option Column :=
  match c, v with
  | ColText, VString _ => Some ColText
  | ColLevel, VInt _ => Some ColLevel
  | ColCapacity, VInt _ => Some ColCapacity
  | _, _ => None
  end.

(** The cell an entry writes: the index of its record and the field; an
    entry without a dot in its name is skipped and writes none. *)
Definition supplyCell (e : SnmpPDU) : option (Z * Column) :=
  if bool_decide (dotted (Name e))
  then (λ c, (pduIndex (Name e), c)) <$> storeField (supplyColumn (Name e)) (Value_ e)
  else None.

Definition trayCell (e : SnmpPDU) : option (Z * Column) :=
  if bool_decide (dotted (Name e))
  then (λ c, (pduIndex (Name e), c)) <$> storeField (trayColumn (Name e)) (Value_ e)
  else None.

(** Two entries can be exchanged unless both write the same cell. *)
Definition exchangeable (c1 c2 : option (Z * Column)) : Prop :=
  c1 = None ∨ c2 = None ∨ c1 ≠ c2.

Lemma supplyStore_commute c1 v1 c2 v2 s :
  storeField c1 v1 = None ∨ storeField c2 v2 = None ∨
    storeField c1 v1 ≠ storeField c2 v2 →
  supplyStore c1 v1 (supplyStore c2 v2 s) = supplyStore c2 v2 (supplyStore c1 v1 s).
Proof.
  intros H. destruct c1, c2, v1, v2; try reflexivity;
    simpl in H; destruct H as [H|[H|H]]; congruence.
Qed.

Lemma trayStore_commute c1 v1 c2 v2 t :
  storeField c1 v1 = None ∨ storeField c2 v2 = None ∨
    storeField c1 v1 ≠ storeField c2 v2 →
  trayStore c1 v1 (trayStore c2 v2 t) = trayStore c2 v2 (trayStore c1 v1 t).
Proof.
  intros H. destruct c1, c2, v1, v2; try reflexivity;
    simpl in H; destruct H as [H|[H|H]]; congruence.
Qed.

Lemma supplyWalkFn_commute supplies e1 e2 :
  exchangeable (supplyCell e1) (supplyCell e2) →
  supplyWalkFn (supplyWalkFn supplies e1) e2 =
  supplyWalkFn (supplyWalkFn supplies e2) e1.
Proof.
  intros Hk. unfold exchangeable, supplyCell in Hk.
  destruct (decide (dotted (Name e1))) as [H1|H1];
    [|by rewrite !(supplyWalkFn_undotted _ e1)].
  destruct (decide (dotted (Name e2))) as [H2|H2];
    [|by rewrite !(supplyWalkFn_undotted _ e2)].
  rewrite !bool_decide_true in Hk by done.
  rewrite !supplyWalkFn_dotted by done.
  destruct (decide (pduIndex (Name e1) = pduIndex (Name e2))) as [Hi|Hi].
  - rewrite Hi in *. rewrite !lookup_insert_eq, !insert_insert_eq. simpl.
    f_equal. apply supplyStore_commute.
    destruct (storeField (supplyColumn (Name e1)) (Value_ e1)),
             (storeField (supplyColumn (Name e2)) (Value_ e2));
      simpl in Hk; destruct Hk as [Hk|[Hk|Hk]]; try done; auto.
    right; right. congruence.
  - rewrite !lookup_insert_ne by done. by apply insert_insert_ne.
Qed.

Lemma trayWalkFn_commute trays e1 e2 :
  exchangeable (trayCell e1) (trayCell e2) →
  trayWalkFn (trayWalkFn trays e1) e2 = trayWalkFn (trayWalkFn trays e2) e1.
Proof.
  intros Hk. unfold exchangeable, trayCell in Hk.
  destruct (decide (dotted (Name e1))) as [H1|H1];
    [|by rewrite !(trayWalkFn_undotted _ e1)].
  destruct (decide (dotted (Name e2))) as [H2|H2];
    [|by rewrite !(trayWalkFn_undotted _ e2)].
  rewrite !bool_decide_true in Hk by done.
  rewrite !trayWalkFn_dotted by done.
  destruct (decide (pduIndex (Name e1) = pduIndex (Name e2))) as [Hi|Hi].
  - rewrite Hi in *. rewrite !lookup_insert_eq, !insert_insert_eq. simpl.
    f_equal. apply trayStore_commute.
    destruct (storeField (trayColumn (Name e1)) (Value_ e1)),
             (storeField (trayColumn (Name e2)) (Value_ e2));
      simpl in Hk; destruct Hk as [Hk|[Hk|Hk]]; try done; auto.
    right; right. congruence.
  - rewrite !lookup_insert_ne by done. by apply insert_insert_ne.
Qed.

(** In a list whose written cells are pairwise distinct the first two
    entries can be exchanged. *)
Lemma NoDup_omap_exchangeable {A} (cell : A → option (Z * Column)) x y l :
  NoDup (omap cell (x :: y :: l)) → exchangeable (cell x) (cell y).
Proof.
  unfold exchangeable. simpl.
  destruct (cell x) as [cx|]; [|by left].
  destruct (cell y) as [cy|]; [|by right; left].
  intros [Hx _]%NoDup_cons. right; right. intros [= ->].
  apply Hx. apply elem_of_cons. by left.
Qed.

Lemma NoDup_omap_tail {A} (cell : A → option (Z * Column)) x l :
  NoDup (omap cell (x :: l)) → NoDup (omap cell l).
Proof. simpl. destruct (cell x); [by intros [_ ?]%NoDup_cons|done]. Qed.

Lemma fold_supplyWalkFn_perm l l' :
  l ≡ₚ l' → NoDup (omap supplyCell l) →
  ∀ m, fold_left supplyWalkFn l m = fold_left supplyWalkFn l' m.
Proof.
  induction 1 as [|x l l' Hp IH|x y l|l l' l'' Hp1 IH1 Hp2 IH2]; intros Hnd m.
  - done.
  - simpl. apply IH. by eapply NoDup_omap_tail.
  - simpl. f_equal. apply supplyWalkFn_commute.
    by eapply NoDup_omap_exchangeable.
  - rewrite IH1 by done. apply IH2. by rewrite <- Hp1.
Qed.

Lemma fold_trayWalkFn_perm l l' :
  l ≡ₚ l' → NoDup (omap trayCell l) →
  ∀ m, fold_left trayWalkFn l m = fold_left trayWalkFn l' m.
Proof.
  induction 1 as [|x l l' Hp IH|x y l|l l' l'' Hp1 IH1 Hp2 IH2]; intros Hnd m.
  - done.
  - simpl. apply IH. by eapply NoDup_omap_tail.
  - simpl. f_equal. apply trayWalkFn_commute.
    by eapply NoDup_omap_exchangeable.
  - rewrite IH1 by done. apply IH2. by rewrite <- Hp1.
Qed.

(** X12: when no two entries of a walk write the same field of the same
    record (the record given by the number in the last component of the
    name, the field by the prefix tests of the callback and the type of
    the value), the map the walk fills does not depend on the order in
    which the entries arrive.  Entries that write no field, because
    their column is not one the callback knows, their value has another
    type or their name has no dot, may come in any number and order. *)
Theorem walk_order_irrelevant (entries entries' : list SnmpPDU) :
  entries ≡ₚ entries' →
  (NoDup (omap supplyCell entries) → walkSupplies entries = walkSupplies entries') ∧
  (NoDup (omap trayCell entries) → walkTrays entries = walkTrays entries').
Proof.
  intros Hp. split; intros Hnd.
  - by apply fold_supplyWalkFn_perm.
  - by apply fold_trayWalkFn_perm.
Qed.

(** A walk over two rows of the supplies table, by column as an agent
    returns it, with the columns the callback does not know (type 5,
    unit 7) among those it stores (description 6, capacity 8, level
    9). *)
Definition sample_supply_walk : list SnmpPDU :=
  [ {| Name := ".1.3.6.1.2.1.43.11.1.1.5.1.1"; Type_ := OtherType; Value_ := VInt 3 |};
    {| Name := ".1.3.6.1.2.1.43.11.1.1.5.1.2"; Type_ := OtherType; Value_ := VInt 3 |};
    {| Name := ".1.3.6.1.2.1.43.11.1.1.6.1.1"; Type_ := OtherType;
       Value_ := VString "Black Toner" |};
    {| Name := ".1.3.6.1.2.1.43.11.1.1.6.1.2"; Type_ := OtherType;
       Value_ := VString "Cyan Toner" |};
    {| Name := ".1.3.6.1.2.1.43.11.1.1.7.1.1"; Type_ := OtherType; Value_ := VInt 19 |};
    {| Name := ".1.3.6.1.2.1.43.11.1.1.7.1.2"; Type_ := OtherType; Value_ := VInt 19 |};
    {| Name := ".1.3.6.1.2.1.43.11.1.1.8.1.1"; Type_ := OtherType; Value_ := VInt 100 |};
    {| Name := ".1.3.6.1.2.1.43.11.1.1.8.1.2"; Type_ := OtherType; Value_ := VInt 100 |};
    {| Name := ".1.3.6.1.2.1.43.11.1.1.9.1.1"; Type_ := OtherType; Value_ := VInt 80 |};
    {| Name := ".1.3.6.1.2.1.43.11.1.1.9.1.2"; Type_ := OtherType; Value_ := VInt 45 |} ].

Lemma walk_order_irrelevant_witness :
  walkSupplies sample_supply_walk = walkSupplies (reverse sample_supply_walk).
Proof.
  apply (proj1 (walk_order_irrelevant sample_supply_walk
                  (reverse sample_supply_walk)
                  (symmetry (reverse_Permutation sample_supply_walk)))).
  refine (bool_decide_unpack _ _). vm_compute. exact I.
Defined.

(** Two entries that write the same field of the same record cannot be
    exchanged: of columns 2 and 21 of the tray table, both stored into
    [Name], the later one wins. *)
Example same_cell_order_matters :
  let e2 := {| Name := ".1.3.6.1.2.1.43.8.2.1.2.1.1"; Type_ := OtherType;
               Value_ := VString "Tray 1" |} in
  let e21 := {| Name := ".1.3.6.1.2.1.43.8.2.1.21.1.1"; Type_ := OtherType;
                Value_ := VString "plain" |} in
  trayCell e2 = trayCell e21 ∧
  walkTrays [e2; e21] !! 1 = Some (Tray.mk "plain" 0 0) ∧
  walkTrays [e21; e2] !! 1 = Some (Tray.mk "Tray 1" 0 0).
Proof. vm_compute. repeat split. Qed.

(** ** The printed percentage, by exhaustive evaluation *)

(** What is checked of one level and one capacity. *)
Definition percent_ok (l c : Z) : bool :=
  let q := 100 * l / c in
  let r := percent l c in
  ((r =? q) || (r =? q - 1)) && (0 <=? r) && (r <=? 100)
  && (negb (l =? c) || (r =? 100)) && (negb (l =? 0) || (r =? 0)).

Lemma forallb_seqZ (f : Z → bool) (m n x : Z) :
  forallb f (seqZ m n) = true → m <= x < m + n → f x = true.
Proof.
  intros H Hx. rewrite forallb_forall in H.
  apply H, list_elem_of_In, elem_of_seqZ. lia.
Qed.

Lemma percent_ok_250 :
  forallb (λ c, forallb (λ l, percent_ok l c) (seqZ 0 (c + 1))) (seqZ 1 250) = true.
Proof. vm_compute. reflexivity. Qed.

Lemma percent_ok_spec l c :
  percent_ok l c = true →
  (percent l c = 100 * l / c ∨ percent l c = 100 * l / c - 1) ∧
  0 <= percent l c <= 100 ∧
  (l = c → percent l c = 100) ∧
  (l = 0 → percent l c = 0).
Proof.
  unfold percent_ok. cbv zeta.
  generalize (percent l c) (100 * l / c). intros r q H.
  repeat (apply andb_true_iff in H as [H ?]).
  apply orb_true_iff in H.
  repeat split; lia.
Qed.

(** X13: for a capacity from 1 to 250 and a level from 0 to the
    capacity, the printed percentage is the floor of the exact quotient
    100 * level / capacity or one below it, it lies between 0 and 100,
    a full supply prints 100 and an empty one 0. *)
Theorem percent_within_one (level capacity : Z) :
  1 <= capacity <= 250 → 0 <= level <= capacity →
  (percent level capacity = 100 * level / capacity ∨
   percent level capacity = 100 * level / capacity - 1) ∧
  0 <= percent level capacity <= 100 ∧
  (level = capacity → percent level capacity = 100) ∧
  (level = 0 → percent level capacity = 0).
Proof.
  intros Hc Hl. apply percent_ok_spec.
  apply (forallb_seqZ (λ l, percent_ok l capacity) 0 (capacity + 1) level);
    [|lia].
  apply (forallb_seqZ
           (λ c, forallb (λ l, percent_ok l c) (seqZ 0 (c + 1))) 1 250 capacity);
    [|lia].
  exact percent_ok_250.
Qed.

Lemma percent_within_one_witness :
  (percent 80 100 = 100 * 80 / 100 ∨ percent 80 100 = 100 * 80 / 100 - 1) ∧
  0 <= percent 80 100 <= 100 ∧
  (80 = 100 → percent 80 100 = 100) ∧
  (80 = 0 → percent 80 100 = 0).
Proof. apply (percent_within_one 80 100); lia. Defined.

(** ** [incIP] on any slice *)

Lemma incIP_loop_length k : ∀ l, length (incIP_loop k l) = length l.
Proof.
  induction k as [|k IH]; intros l; [done|]. cbn [incIP_loop].
  destruct (l !! k) as [b|]; [|done].
  destruct (b <? 255); [apply length_insert|].
  etrans; [apply IH|apply length_insert].
Qed.

Lemma To4_length ip ip4 : To4 ip = Some ip4 → length ip4 = 4%nat.
Proof.
  unfold To4. destruct (Nat.eqb_spec (length ip) 4) as [H4|H4]; [congruence|].
  destruct (Nat.eqb_spec (length ip) 16) as [H16|H16]; [|done].
  destruct (list_eqb _ _); [|done]. simpl.
  intros H. assert (ip4 = drop 12 ip) as -> by congruence.
  rewrite length_drop. lia.
Qed.

(** X14: whatever slice it is given, [incIP] returns nil or a slice of
    four octets; it returns nil for every length other than 4 and 16 and
    for a 16-octet address that is not IPv4-mapped, and it increments a
    16-octet IPv4-mapped address as its 4-octet form. *)
Theorem incIP_shape :
  (∀ ip ip', incIP ip = Some ip' → length ip' = 4%nat) ∧
  (∀ ip, length ip ≠ 4%nat → length ip ≠ 16%nat → incIP ip = None) ∧
  (∀ ip, length ip = 16%nat → take 12 ip ≠ v4InV6Prefix → incIP ip = None) ∧
  (∀ ip4, length ip4 = 4%nat → incIP (v4InV6Prefix ++ ip4) = incIP ip4).
Proof.
  split; [|split; [|split]].
  - intros ip ip'. unfold incIP.
    destruct (To4 ip) as [ip4|] eqn:E; [|done].
    apply To4_length in E. intros H.
    assert (ip' = incIP_loop 4 (take 4 ip4)) as -> by congruence.
    etrans; [apply incIP_loop_length|]. rewrite length_take. lia.
  - intros ip H4 H16. unfold incIP, To4.
    destruct (Nat.eqb_spec (length ip) 4); [done|].
    by destruct (Nat.eqb_spec (length ip) 16).
  - intros ip H16 Hp. unfold incIP, To4. rewrite H16. simpl.
    unfold list_eqb. by rewrite bool_decide_false.
  - intros ip4 H4.
    destruct ip4 as [|a [|b [|c [|d [|? ?]]]]]; try discriminate. reflexivity.
Qed.

Lemma broadcast_value ip :
  is_ip4 ip → ipToZ ip = 4294967295 → ip = [255; 255; 255; 255].
Proof.
  intros Hip Hv. rewrite <- (ipOfZ_ipToZ ip Hip), Hv. reflexivity.
Qed.

(** X15: on 4-octet addresses [incIP] is injective; the successor of
    every address but 255.255.255.255 has the 32-bit value of the address
    plus one, without wrap-around; and 0.0.0.0 is the successor of
    255.255.255.255 alone. *)
Theorem incIP_order (a b : IP) :
  is_ip4 a → is_ip4 b →
  (incIP a = incIP b → a = b) ∧
  (a ≠ [255; 255; 255; 255] → ipToZ <$> incIP a = Some (ipToZ a + 1)) ∧
  (incIP a = Some [0; 0; 0; 0] ↔ a = [255; 255; 255; 255]).
Proof.
  intros Ha Hb.
  pose proof (ipToZ_range a Ha) as Hra. pose proof (ipToZ_range b Hb) as Hrb.
  change (2 ^ 32) with 4294967296 in *.
  assert (Hmod : ∀ v, 0 <= v < 4294967296 →
            (v + 1) mod 4294967296 = if decide (v = 4294967295) then 0 else v + 1).
  { intros v Hv. case_decide as E; [by rewrite E|]. apply Z.mod_small. lia. }
  rewrite !incIP_value by done. change (2 ^ 32) with 4294967296.
  rewrite !Hmod by done.
  split; [|split].
  - intros H%(inj Some). apply (f_equal ipToZ) in H.
    rewrite !ipToZ_ipOfZ in H by (change (2 ^ 32) with 4294967296; repeat case_decide; lia).
    rewrite <- (ipOfZ_ipToZ a Ha), <- (ipOfZ_ipToZ b Hb). f_equal.
    repeat case_decide; lia.
  - intros Hne. case_decide as E; [by apply broadcast_value in E|].
    simpl. f_equal. apply ipToZ_ipOfZ. change (2 ^ 32) with 4294967296. lia.
  - split.
    + intros H%(inj Some). apply (f_equal ipToZ) in H.
      rewrite ipToZ_ipOfZ in H by (change (2 ^ 32) with 4294967296; case_decide; lia).
      case_decide as E; [by apply broadcast_value|].
      change (ipToZ [0; 0; 0; 0]) with 0 in H. lia.
    + intros ->. reflexivity.
Qed.

Lemma incIP_order_witness :
  (incIP [192; 168; 1; 255] = incIP [192; 168; 1; 255] →
   [192; 168; 1; 255] = [192; 168; 1; 255]) ∧
  ([192; 168; 1; 255] ≠ [255; 255; 255; 255] →
   ipToZ <$> incIP [192; 168; 1; 255] = Some (ipToZ [192; 168; 1; 255] + 1)) ∧
  (incIP [192; 168; 1; 255] = Some [0; 0; 0; 0] ↔
   [192; 168; 1; 255] = [255; 255; 255; 255]).
Proof.
  apply (incIP_order [192; 168; 1; 255] [192; 168; 1; 255]);
    apply is_ip4_intro; unfold octet; lia.
Defined.

(** ** Discovery with a single worker *)

(** With one worker the channel, the worker and the record of probes
    hold the addresses sent in their order, and [printers] grows in the
    order of the positive probes. *)
Definition in_order (s : Pool) : Prop :=
  ∃ w, workers s = [w] ∧
       sent s = (probes (shared s)).*1 ++ inflight1 w ++ ipChan (shared s) ∧
       positives (probes (shared s)) = printers (shared s) ++ pending1 w.

Lemma single_worker_in_order net community s :
  reachable net community 1 s → in_order s.
Proof.
  revert s. apply rtc_ind_r; [by exists WRecv|].
  intros s s' Hr Hst (w & Hw & Hs & Hp).
  pose proof (reachable_inv _ _ _ _ Hr) as HI.
  destruct Hst; simpl in *.
  - exists w. repeat split; try done. rewrite Hs. by rewrite <- !app_assoc.
  - by exists w.
  - by exists w.
  - destruct ws1 as [|? [|? ?]]; simplify_eq/=.
    pose proof (inv_old _ _ _ HI) as Ho. simpl in Ho.
    destruct H; simpl in *.
    + exists (WProbe ip). by repeat split.
    + by exists WDone.
    + rewrite app_nil_r in Hp.
      exists (if b then WLock ip else WRecv). simpl.
      rewrite fmap_app, positives_snoc, Hp, <- app_assoc.
      by destruct b; simpl; rewrite ?app_nil_r.
    + by exists (WRead ip).
    + by exists (WWrite ip pr).
    + exists WUnlock. simpl in *. split; [done|]. split; [done|].
      rewrite Hp, app_nil_r. f_equal. symmetry.
      apply (Ho ip). apply list_elem_of_singleton; done.
    + by exists WRecv.
  - by exists w.
Qed.

Lemma channel_lifecycle_facts net community W s :
  reachable net community W s →
  (WDone ∈ workers s → closed (shared s) = true ∧ ipChan (shared s) = []) ∧
  (returned s → Forall (eq WDone) (workers s)).
Proof. by intros [_ _ _ _ _ Hd Hr _ _ _]%reachable_inv. Qed.

(** X16: with a single worker the addresses are probed in the order in
    which they are enumerated, and [scanNetwork] returns the printers in
    that order: when it returns, the probes are the block in its order
    and [printers] lists the positive ones in that order. *)
Theorem single_worker_order (net : IPNet) (community : string)
    (block : list IP) (exit : LoopExit) (fuel0 : nat) (s : Pool) :
  exit ≠ OutOfFuel →
  enum_loop fuel0 net (IPNet_IP net) = (block, exit) →
  reachable net community 1 s → returned s →
  (probes (shared s)).*1 = block ∧
  printers (shared s) = positives (probes (shared s)).
Proof.
  intros He Hb Hr Hret.
  destruct (single_worker_in_order _ _ _ Hr) as (w & Hw & Hs & Hp).
  destruct (channel_lifecycle_facts net community 1 s Hr) as (Hd & Hall).
  specialize (Hall Hret). rewrite Hw in Hall.
  apply Forall_singleton in Hall as <-.
  destruct Hd as [_ Hch]; [rewrite Hw; by apply list_elem_of_singleton|].
  rewrite Hch in Hs. simpl in *. rewrite !app_nil_r in *.
  split; [|done].
  rewrite <- Hs. by apply (returned_block net community 1 block exit fuel0).
Qed.

Lemma single_worker_order_witness :
  (probes (shared pair_pool)).*1 = [[10; 0; 0; 4]; [10; 0; 0; 5]] ∧
  printers (shared pair_pool) = positives (probes (shared pair_pool)).
Proof.
  apply (single_worker_order pair_net "public"
           [[10; 0; 0; 4]; [10; 0; 0; 5]] Exhausted 10 pair_pool).
  - discriminate.
  - vm_compute. reflexivity.
  - apply pair_pool_reachable.
  - reflexivity.
Defined.

(** ** What [main] has printed when it exits *)

(** The summary line depends on the number of printers only. *)
Lemma summary_length (found found' : list string) :
  length found = length found' → summary found = summary found'.
Proof. destruct found, found'; simpl; try done. by intros [= ->]. Qed.

Lemma scan_steps ParseCIDR cidr community W net s s' :
  rtc (step net community W) s s' →
  rtc (mstep ParseCIDR cidr community W) (MScan net s) (MScan net s').
Proof.
  induction 1 as [|s1 s2 s3 Hst _ IH]; [apply rtc_refl|].
  eapply rtc_l; [|exact IH]. by apply m_scan.
Qed.

(** X17: when [main] exits after a CIDR that parses (at least one
    worker), its status is 0 and its output is the banner, then one
    "Found printer" line per positive probe, naming its address, then
    the summary for the number of positive probes, then one report per
    positive probe.  If no probe was positive the output is the banner
    and the "No SNMP printers found" line, and nothing was polled. *)
Theorem main_exit_output (ParseCIDR : string → option IPNet)
    (cidr community : string) (W : nat) (net : IPNet)
    (status : Z) (so : option Pool) (reports : list (list string)) :
  (1 <= W)%nat →
  ParseCIDR cidr = Some net →
  rtc (mstep ParseCIDR cidr community W) MStart (MExit status so reports) →
  status = 0 ∧
  ∃ s, so = Some s ∧ reachable net community W s ∧ returned s ∧
       Forall2 found_line (positives (probes (shared s))) (stdout (shared s)) ∧
       length reports = length (positives (probes (shared s))) ∧
       output cidr W (MExit status so reports) =
         banner cidr W :: stdout (shared s)
           ++ summary (positives (probes (shared s))) ++ concat reports ∧
       (positives (probes (shared s)) = [] →
        reports = [] ∧
        output cidr W (MExit status so reports) =
          [banner cidr W; "❌ No SNMP printers found!"]).
Proof.
  intros HW Hp Hm.
  destruct (enum_loop 0 net (IPNet_IP net)) as [block exit] eqn:Hb.
  pose proof (main_reachable_inv ParseCIDR cidr community W net Hp
                block exit 0%nat Hb _ Hm) as HI.
  simpl in HI. destruct HI as (-> & s & -> & Hr & Hret & Hrep).
  split; [done|]. exists s.
  destruct (returned_exact net community W s HW Hr Hret) as (_ & Hperm & _).
  pose proof (stdout_positives net community W s Hr) as Hout.
  assert (Hlen : length (printers (shared s))
                 = length (positives (probes (shared s)))) by by rewrite Hperm.
  assert (Hrl : length reports = length (positives (probes (shared s)))).
  { rewrite <- Hlen. symmetry. by eapply Forall2_length. }
  split; [done|]. split; [done|]. split; [done|]. split; [done|].
  split; [done|]. split.
  - cbn [output]. by rewrite (summary_length _ _ Hlen).
  - intros Hnil. rewrite Hnil in *.
    apply Forall2_nil_inv_l in Hout.
    destruct reports; [|done].
    split; [done|]. cbn [output]. rewrite Hout.
    by rewrite (summary_length _ [] Hlen).
Qed.

(** A parser that knows the block of two addresses, and a run of [main]
    on it with one worker: 10.0.0.4 answers the probe and is polled, but
    the poll fails to connect. *)
Definition pair_ParseCIDR (s : string) : option IPNet :=
  if bool_decide (s = "10.0.0.4/31") then Some pair_net else None.

Definition pair_reports : list (list string) :=
  [pollPrinter key_order "10.0.0.4" "public" silent_device].

Lemma pair_main_run :
  rtc (mstep pair_ParseCIDR "10.0.0.4/31" "public" 1) MStart
      (MExit 0 (Some pair_pool) pair_reports).
Proof.
  eapply rtc_l; [by apply (m_parsed _ _ _ _ pair_net)|].
  etrans; [apply scan_steps, pair_pool_reachable|].
  eapply rtc_l; [by apply m_scanned|].
  eapply rtc_l.
  { apply (m_poll _ _ _ _ pair_pool [] "10.0.0.4" [] key_order silent_device). }
  eapply rtc_l; [|apply rtc_refl].
  apply m_exit.
Qed.

(** ** Instances on concrete devices and addresses *)

(** The probe of [printer_device] returns true, so the device accepted
    the connection and answered the status request. *)
Lemma checkSNMP_result_witness :
  Connect printer_device = None ∧
  ∃ v vs, Get printer_device [".1.3.6.1.2.1.25.3.5.1.1.1"] = Ok (v :: vs) ∧
          Type_ v = OtherType.
Proof.
  apply (proj1 (proj1 (checkSNMP_result "10.0.0.4" "public" printer_device))).
  vm_compute. reflexivity.
Defined.

(** Status code 3 prints as idle. *)
Lemma status_line_witness :
  variableLines {| Name := ".1.3.6.1.2.1.25.3.5.1.1.1";
                   Type_ := OtherType; Value_ := VInt 3 |}
  = ["  Printer Status: idle"].
Proof.
  apply (proj1 (status_line OtherType (VInt 3)) 3 "idle").
  - reflexivity.
  - repeat constructor.
Defined.

(** The successor of 10.0.0.4 has four octets, and a slice of three
    octets has none. *)
Lemma incIP_shape_witness :
  length [10; 0; 0; 5] = 4%nat ∧ incIP [1; 2; 3] = None.
Proof.
  split.
  - apply (proj1 incIP_shape [10; 0; 0; 4]). vm_compute. reflexivity.
  - apply (proj1 (proj2 incIP_shape)); simpl; lia.
Defined.

(** ** A block given in IPv4-mapped form *)

(** The network [net.ParseCIDR] returns for "::ffff:10.0.0.4/128": the
    address and the mask have sixteen octets.  The address sent first is
    the 16-octet one; [IP.String] prints it in dotted form, so the lines
    of discovery and the report name 10.0.0.4. *)
Definition mapped_net : IPNet :=
  {| IPNet_IP := v4InV6Prefix ++ [10; 0; 0; 4];
     IPNet_Mask := default [] (CIDRMask 128 128) |}.

Definition mapped_ParseCIDR (s : string) : option IPNet :=
  if bool_decide (s = "::ffff:10.0.0.4/128") then Some mapped_net else None.

Definition mapped_pool : Pool :=
  mkPool PReturned [v4InV6Prefix ++ [10; 0; 0; 4]] [WDone]
         (mkShared [] true false ["10.0.0.4"]
                   [(v4InV6Prefix ++ [10; 0; 0; 4], true)]
                   ["🎯 Found printer: 10.0.0.4 → (unnamed)"]).

Example mapped_block :
  enum_loop 10 mapped_net (IPNet_IP mapped_net)
  = ([v4InV6Prefix ++ [10; 0; 0; 4]], Exhausted).
Proof. vm_compute. reflexivity. Qed.

Lemma mapped_pool_reachable : reachable mapped_net "public" 1 mapped_pool.
Proof.
  unfold reachable.
  eapply rtc_l.
  { apply (step_send mapped_net "public" 1 (v4InV6Prefix ++ [10; 0; 0; 4]));
      [reflexivity|simpl; lia]. }
  eapply rtc_l.
  { apply (step_exhausted mapped_net "public" 1 [10; 0; 0; 5]). reflexivity. }
  eapply rtc_l.
  { apply step_close. }
  eapply rtc_l.
  { apply (step_worker mapped_net "public" 1 _ _ [] WRecv []). apply ws_recv. }
  eapply rtc_l.
  { apply (step_worker mapped_net "public" 1 _ _ []
             (WProbe (v4InV6Prefix ++ [10; 0; 0; 4])) []).
    apply (ws_probe "public" (v4InV6Prefix ++ [10; 0; 0; 4]) printer_device true
                    ["🎯 Found printer: 10.0.0.4 → (unnamed)"]).
    vm_compute. reflexivity. }
  eapply rtc_l.
  { apply (step_worker mapped_net "public" 1 _ _ []
             (WLock (v4InV6Prefix ++ [10; 0; 0; 4])) []).
    apply ws_lock. }
  eapply rtc_l.
  { apply (step_worker mapped_net "public" 1 _ _ []
             (WRead (v4InV6Prefix ++ [10; 0; 0; 4])) []).
    apply ws_read. }
  eapply rtc_l.
  { apply (step_worker mapped_net "public" 1 _ _ []
             (WWrite (v4InV6Prefix ++ [10; 0; 0; 4]) []) []).
    apply ws_write. }
  eapply rtc_l.
  { apply (step_worker mapped_net "public" 1 _ _ [] WUnlock []). apply ws_unlock. }
  eapply rtc_l.
  { apply (step_worker mapped_net "public" 1 _ _ [] WRecv []). apply ws_range_end. }
  eapply rtc_l; [|apply rtc_refl].
  apply step_join. by repeat constructor.
Qed.

Lemma mapped_main_run :
  rtc (mstep mapped_ParseCIDR "::ffff:10.0.0.4/128" "public" 1) MStart
      (MExit 0 (Some mapped_pool)
             [pollPrinter key_order "10.0.0.4" "public" silent_device]).
Proof.
  eapply rtc_l; [by apply (m_parsed _ _ _ _ mapped_net)|].
  etrans; [apply scan_steps, mapped_pool_reachable|].
  eapply rtc_l; [by apply m_scanned|].
  eapply rtc_l.
  { apply (m_poll _ _ _ _ mapped_pool [] "10.0.0.4" [] key_order silent_device). }
  eapply rtc_l; [|apply rtc_refl].
  apply m_exit.
Qed.

Example mapped_output :
  output "::ffff:10.0.0.4/128" 1
    (MExit 0 (Some mapped_pool)
           [pollPrinter key_order "10.0.0.4" "public" silent_device])
  = [ "🔎 Scanning network ::ffff:10.0.0.4/128 with 1 workers for SNMP-enabled printers...";
      "🎯 Found printer: 10.0.0.4 → (unnamed)";
      "✅ Found 1 SNMP printers:";
      "❌ Failed to connect to 10.0.0.4: i/o timeout" ].
Proof. vm_compute. reflexivity. Qed.

Definition mapped_reports : list (list string) :=
  [pollPrinter key_order "10.0.0.4" "public" silent_device].

Lemma main_exit_output_witness :
  (0 = 0 ∧
   ∃ s, Some pair_pool = Some s ∧ reachable pair_net "public" 1 s ∧ returned s ∧
        Forall2 found_line (positives (probes (shared s))) (stdout (shared s)) ∧
        length pair_reports = length (positives (probes (shared s))) ∧
        output "10.0.0.4/31" 1 (MExit 0 (Some pair_pool) pair_reports) =
          banner "10.0.0.4/31" 1 :: stdout (shared s)
            ++ summary (positives (probes (shared s))) ++ concat pair_reports ∧
        (positives (probes (shared s)) = [] →
         pair_reports = [] ∧
         output "10.0.0.4/31" 1 (MExit 0 (Some pair_pool) pair_reports) =
           [banner "10.0.0.4/31" 1; "❌ No SNMP printers found!"])) ∧
  (0 = 0 ∧
   ∃ s, Some mapped_pool = Some s ∧ reachable mapped_net "public" 1 s ∧ returned s ∧
        Forall2 found_line (positives (probes (shared s))) (stdout (shared s)) ∧
        length mapped_reports = length (positives (probes (shared s))) ∧
        output "::ffff:10.0.0.4/128" 1 (MExit 0 (Some mapped_pool) mapped_reports) =
          banner "::ffff:10.0.0.4/128" 1 :: stdout (shared s)
            ++ summary (positives (probes (shared s))) ++ concat mapped_reports ∧
        (positives (probes (shared s)) = [] →
         mapped_reports = [] ∧
         output "::ffff:10.0.0.4/128" 1 (MExit 0 (Some mapped_pool) mapped_reports) =
           [banner "::ffff:10.0.0.4/128" 1; "❌ No SNMP printers found!"])).
Proof.
  split.
  - apply (main_exit_output pair_ParseCIDR "10.0.0.4/31" "public" 1 pair_net
             0 (Some pair_pool) pair_reports);
      [lia | reflexivity | apply pair_main_run].
  - apply (main_exit_output mapped_ParseCIDR "::ffff:10.0.0.4/128" "public" 1
             mapped_net 0 (Some mapped_pool) mapped_reports);
      [lia | reflexivity | apply mapped_main_run].
Defined.
